(** * gosecurityheaders: a shallow embedding of [main.go]

    The program fetches the response headers of a list of URLs and reports
    which of six security headers are present.  Go strings are byte
    sequences, modelled as [string] (lists of [ascii] bytes); Go maps are
    stdpp [gmap]s; the outside world (network, file system, the order in
    which the Go runtime visits the entries of a map) is a [Runtime]
    record that the program threads through explicitly. *)

From Stdlib Require Import Ascii NArith ZArith.
From stdpp Require Import base gmap strings list fin_maps.

(** ** Bytes *)

Module Byte8.

Local Open Scope char_scope.

Definition between (lo hi c : ascii) : bool :=
  ((N_of_ascii lo <=? N_of_ascii c) && (N_of_ascii c <=? N_of_ascii hi))%N.

Definition isLower (c : ascii) : bool := between "a" "z" c.
Definition isUpper (c : ascii) : bool := between "A" "Z" c.
Definition isDigit (c : ascii) : bool := between "0" "9" c.

(** [c -= 'a' - 'A'] and [c += 'a' - 'A'] on a byte. *)
Definition toUpper (c : ascii) : ascii :=
  if isLower c then ascii_of_N (N_of_ascii c - 32) else c.
Definition toLower (c : ascii) : ascii :=
  if isUpper c then ascii_of_N (N_of_ascii c + 32) else c.

(** Every byte, for the case analyses below. *)
Definition all : list ascii := ascii_of_nat <$> seq 0 256.

End Byte8.

(** ** Strings: the functions of Go's [strings] package the program calls *)

Module Strings.

Fixpoint map (f : ascii → ascii) (s : string) : string :=
  match s with
  | EmptyString => EmptyString
  | String c s' => String (f c) (map f s')
  end.

Fixpoint all (p : ascii → bool) (s : string) : bool :=
  match s with
  | EmptyString => true
  | String c s' => p c && all p s'
  end.

(** [strings.HasPrefix(s, prefix)]. *)
Definition HasPrefix (s prefix : string) : bool := String.prefix prefix s.

(** [strings.Join(elems, sep)]. *)
Fixpoint Join (elems : list string) (sep : string) : string :=
  match elems with
  | [] => ""
  | [e] => e
  | e :: rest => e +:+ sep +:+ Join rest sep
  end.

(** [strings.Split(s, sep)] for a one-byte separator: the pieces between
    the occurrences of [sep], one more piece than occurrences. *)
Fixpoint Split (s : string) (sep : ascii) : list string :=
  match s with
  | EmptyString => [""]
  | String c s' =>
      if decide (c = sep) then "" :: Split s' sep
      else match Split s' sep with
           | piece :: pieces => String c piece :: pieces
           | [] => [String c ""]
           end
  end.

(** The UTF-8 encodings of the runes [unicode.IsSpace] accepts: tab to
    carriage return, space, U+0085, U+00A0, U+1680, U+2000 to U+200A,
    U+2028, U+2029, U+202F, U+205F and U+3000. *)
Definition utf8 (bytes : list nat) : string :=
  foldr (λ b s, String (ascii_of_nat b) s) "" bytes.

Definition spaces : list string :=
  utf8 <$> [ [9]; [10]; [11]; [12]; [13]; [32];
             [194; 133]; [194; 160];
             [225; 154; 128];
             [226; 128; 128]; [226; 128; 129]; [226; 128; 130];
             [226; 128; 131]; [226; 128; 132]; [226; 128; 133];
             [226; 128; 134]; [226; 128; 135]; [226; 128; 136];
             [226; 128; 137]; [226; 128; 138];
             [226; 128; 168]; [226; 128; 169]; [226; 128; 175];
             [226; 129; 159];
             [227; 128; 128] ].

(** [s] without [p] in front, when [s] starts with [p]. *)
Fixpoint cutPrefix (p s : string) : option string :=
  match p, s with
  | EmptyString, _ => Some s
  | String a p', String b s' => if decide (a = b) then cutPrefix p' s' else None
  | String _ _, EmptyString => None
  end.

(** The rest of [s] after one leading space rune, if it has one. *)
Definition cutSpace (encodings : list string) (s : string) : option string :=
  head (omap (λ e, cutPrefix e s) encodings).

(** The loop of [TrimLeftFunc]: drop space runes while there is one in
    front.  Each round removes at least a byte, so [length s] rounds are
    enough. *)
Fixpoint trimLoop (encodings : list string) (rounds : nat) (s : string) : string :=
  match rounds with
  | O => s
  | S rounds =>
      match cutSpace encodings s with
      | Some rest => trimLoop encodings rounds rest
      | None => s
      end
  end.

Definition TrimLeft (s : string) : string :=
  trimLoop spaces (String.length s) s.

(** [TrimRightFunc] reads the runes from the end: the same loop on the
    reversed bytes. *)
Definition TrimRight (s : string) : string :=
  String.rev (trimLoop (String.rev <$> spaces) (String.length s) (String.rev s)).

(** [strings.TrimSpace(s)]. *)
Definition TrimSpace (s : string) : string := TrimRight (TrimLeft s).

(** ASCII case folding, the comparison HTTP uses for field names. *)
Definition lower (s : string) : string := map Byte8.toLower s.
Definition EqualFold (s t : string) : bool := bool_decide (lower s = lower t).

End Strings.

(** ** Header sets ([net/http.Header], [net/textproto])

    The program reads the header set the HTTP client of the Go standard
    library hands it.  The client stores every field it receives under
    the canonical form of its name; that part of the library is modelled
    here, from its documented behaviour. *)

(** [http.Header] is [map[string][]string]. *)
Abbreviation Header := (gmap string (list string)).

Module Textproto.

Local Open Scope char_scope.

(** The bytes of an RFC 7230 token ([validHeaderFieldByte]). *)
Definition validHeaderFieldByte (c : ascii) : bool :=
  Byte8.isLower c || Byte8.isUpper c || Byte8.isDigit c ||
  bool_decide (c ∈ ["!"; "#"; "$"; "%"; "&"; "'"; "*"; "+"; "-"; ".";
                    "^"; "_"; "`"; "|"; "~"]).

(** One step of the canonicalisation loop: upper case at the start and
    after a dash, lower case elsewhere. *)
Definition canonByte (upper : bool) (c : ascii) : ascii :=
  if upper && Byte8.isLower c then Byte8.toUpper c
  else if negb upper && Byte8.isUpper c then Byte8.toLower c
  else c.

Fixpoint canonBytes (upper : bool) (a : string) : string :=
  match a with
  | EmptyString => EmptyString
  | String c a' =>
      let c' := canonByte upper c in
      String c' (canonBytes (bool_decide (c' = "-")) a')
  end.

(** [textproto.CanonicalMIMEHeaderKey]: a key holding a byte that is not
    a token byte is returned unchanged. *)
Definition CanonicalMIMEHeaderKey (s : string) : string :=
  if Strings.all validHeaderFieldByte s then canonBytes true s else s.

(** [MIMEHeader.Add]: append a value under the canonical key. *)
Definition Add (h : Header) (key value : string) : Header :=
  let key := CanonicalMIMEHeaderKey key in
  <[key := default [] (h !! key) ++ [value]]> h.

(** The header set the HTTP client builds from the field lines of a
    response, in wire order ([Reader.ReadMIMEHeader]): every field is
    stored under its canonical key, a field with an empty name is
    skipped. *)
Definition ReadMIMEHeader (fields : list (string * string)) : Header :=
  foldl (λ m f, if decide (f.1 = EmptyString) then m else Add m f.1 f.2) ∅ fields.

End Textproto.

(** ** The program *)

Definition requiredHeaders : list string :=
  [ "Content-Security-Policy";
    "Strict-Transport-Security";
    "X-Frame-Options";
    "X-Content-Type-Options";
    "Referrer-Policy";
    "Permissions-Policy" ].

(** [_, present := headers[header]]: is the key in the map. *)
Definition present (headers : Header) (header : string) : bool :=
  bool_decide (is_Some (headers !! header)).

(** [checkHeaders]: one entry per required header, in a fresh map. *)
Definition checkHeaders (headers : Header) : gmap string bool :=
  foldl (λ results header, <[header := present headers header]> results)
        ∅ requiredHeaders.

(** *** The world outside the program *)

Inductive result (A : Type) :=
| Ok (a : A)
| Err (err : string).
Arguments Ok {A} a.
Arguments Err {A} err.

(** What a run does that can be observed, in order. *)
Inductive event :=
| Stdout (text : string)                      (* fmt.Printf, fmt.Println *)
| Logged (text : string)                      (* log.Printf, log.Fatalf *)
| HttpGet (skipVerify : bool) (url : string)  (* client.Get *)
| CsvRecord (path : string) (record : list string). (* csv.Writer.Write *)

(** The libraries and the Go runtime the program runs on.  [mapRange] is
    the order in which a [range] loop visits a map: the language leaves it
    unspecified, every entry is visited once. *)
Record Runtime := {
  World : Type;
  (* client.Get with InsecureSkipVerify set or not: the header set of the
     response or the error, and the world after the request *)
  clientGet : bool → string → World → result Header * World;
  (* ioutil.ReadFile: the bytes of the file or the error *)
  ReadFile : string → World → result string;
  (* os.Create and csv.Writer.Write: the error, if any *)
  osCreate : string → World → option string * World;
  csvWrite : string → list string → World → option string * World;
  mapRange : ∀ V, World → gmap string V → list (string * V);
  mapRange_perm : ∀ V w (m : gmap string V), mapRange V w m ≡ₚ map_to_list m;
  (* the two colour functions of github.com/fatih/color *)
  missingColor : string → string;
  presentColor : string → string;
}.
Arguments mapRange r {V} w m.

Record Options := {
  missingOnly : bool;
  skipSSL : bool;
  outputFile : string;
  inputFile : string;
  args : list string;
}.

Definition usage : string :=
  "Usage: go run main.go [--missing] [--skip-ssl] [--input=<file>] [--output=<file.csv>] <URL1> <URL2> ...".

Definition newline : string := String (ascii_of_nat 10) "".

Section Program.

Context (R : Runtime).

Record state := {
  world : World R;
  trace : list event;
}.

Definition emit (e : event) (s : state) : state :=
  {| world := world s; trace := trace s ++ [e] |}.

(** Lines 38 to 40 of [fetchHeaders]: the URL the request is made to. *)
Definition requestURL (url : string) : string :=
  if negb (Strings.HasPrefix url "http://") && negb (Strings.HasPrefix url "https://")
  then "http://" +:+ url
  else url.

(** [client] is the global client, here its one setting. *)
Definition fetchHeaders (client : bool) (url : string) (s : state)
  : result Header * state :=
  let url := requestURL url in
  let '(resp, w) := clientGet R client url (world s) in
  (resp, {| world := w; trace := trace s ++ [HttpGet client url] |}).

Definition displayResults (url : string) (results : gmap string bool)
    (s : state) : state :=
  let s := emit (Stdout (newline +:+ "Results for " +:+ url +:+ ":" +:+ newline)) s in
  foldl (λ s '(header, present),
           if present : bool
           then emit (Stdout ("  " +:+ header +:+ ": " +:+ presentColor R "Present" +:+ newline)) s
           else emit (Stdout ("  " +:+ header +:+ ": " +:+ missingColor R "Missing" +:+ newline)) s)
        s (mapRange R (world s) results).

(** The body of the row loop: [headers[header]] is false for a key that
    is not in the map. *)
Definition csvRow (url : string) (headers : gmap string bool) : list string :=
  foldl (λ row header,
           if default false (headers !! header)
           then row ++ ["Present"] else row ++ ["Missing"])
        [url] requiredHeaders.

(** [writer.Write(record)]; the record is in the trace when it succeeds. *)
Definition writeRecord (path : string) (record : list string) (s : state)
  : option string * state :=
  match csvWrite R path record (world s) with
  | (Some err, w) => (Some err, {| world := w; trace := trace s |})
  | (None, w) => (None, {| world := w; trace := trace s ++ [CsvRecord path record] |})
  end.

(** The row loop, stopping at the first write that fails. *)
Fixpoint writeRows (path : string) (entries : list (string * gmap string bool))
    (s : state) : option string * state :=
  match entries with
  | [] => (None, s)
  | (url, headers) :: entries =>
      match writeRecord path (csvRow url headers) s with
      | (Some err, s) => (Some err, s)
      | (None, s) => writeRows path entries s
      end
  end.

Definition writeResultsToCSV (filePath : string)
    (results : gmap string (gmap string bool)) (s : state)
  : option string * state :=
  match osCreate R filePath (world s) with
  | (Some err, w) => (Some err, {| world := w; trace := trace s |})
  | (None, w) =>
      let s := {| world := w; trace := trace s |} in
      let header := ["URL"] ++ requiredHeaders in
      match writeRecord filePath header s with
      | (Some err, s) => (Some err, s)
      | (None, s) => writeRows filePath (mapRange R (world s) results) s
      end
  end.

Definition readURLsFromFile (filePath : string) (w : World R)
  : result (list string) :=
  match ReadFile R filePath w with
  | Err err => Err err
  | Ok data =>
      let lines := Strings.Split data (ascii_of_nat 10) in
      Ok (foldl (λ urls line,
                   let trimmed := Strings.TrimSpace line in
                   if decide (trimmed ≠ "") then urls ++ [trimmed] else urls)
                [] lines)
  end.

(** Lines 135 to 144 of [main]: the URLs of the run. *)
Definition collectURLs (o : Options) (w : World R) : result (list string) :=
  let urls := args o in
  if decide (inputFile o ≠ "") then
    match readURLsFromFile (inputFile o) w with
    | Err err => Err err
    | Ok fileURLs => Ok (urls ++ fileURLs)
    end
  else Ok urls.

(** Lines 172 to 180 of [main]: the names the [range] loop collects and
    the line printed for them. *)
Definition missingHeaders (visited : list (string * bool)) : list string :=
  foldl (λ missing '(header, present),
           if negb present then missing ++ [header] else missing)
        [] visited.

Definition missingLine (url : string) (missing : list string) : string :=
  url +:+ " is missing: " +:+ Strings.Join missing ", " +:+ newline.

(** The body of the loop over the URLs (lines 162 to 183). *)
Definition processURL (o : Options)
    (acc : gmap string (gmap string bool) * state) (url : string)
  : gmap string (gmap string bool) * state :=
  let '(resultsForCSV, s) := acc in
  match fetchHeaders (skipSSL o) url s with
  | (Err err, s) =>
      (resultsForCSV,
       emit (Logged ("Error fetching headers for " +:+ url +:+ ": " +:+ err +:+ newline)) s)
  | (Ok headers, s) =>
      let results := checkHeaders headers in
      let resultsForCSV := <[url := results]> resultsForCSV in
      if missingOnly o then
        let missing := missingHeaders (mapRange R (world s) results) in
        if decide (0 < length missing)
        then (resultsForCSV, emit (Stdout (missingLine url missing)) s)
        else (resultsForCSV, s)
      else (resultsForCSV, displayResults url results s)
  end.

Definition processURLs (o : Options) (urls : list string) (s : state)
  : gmap string (gmap string bool) * state :=
  foldl (processURL o) (∅, s) urls.

(** [main] after [flag.Parse]: the exit status and the final state. *)
Definition main (o : Options) (w : World R) : Z * state :=
  let s := {| world := w; trace := [] |} in
  match collectURLs o w with
  | Err err =>
      (1%Z, emit (Logged ("Error reading URLs from file: " +:+ err +:+ newline)) s)
  | Ok urls =>
      if decide (length urls = 0) then
        (1%Z, emit (Stdout (usage +:+ newline)) s)
      else
        let '(resultsForCSV, s) := processURLs o urls s in
        if decide (outputFile o ≠ "") then
          match writeResultsToCSV (outputFile o) resultsForCSV s with
          | (Some err, s) =>
              (1%Z, emit (Logged ("Error writing to CSV: " +:+ err +:+ newline)) s)
          | (None, s) =>
              (0%Z, emit (Stdout (newline +:+ "Results exported to " +:+ outputFile o +:+ newline)) s)
          end
        else (0%Z, s)
  end.

End Program.

(** *** Runs to compute with: a scripted world *)

Module Sim.

(** The network answers the successive requests from a script and
    refuses the connection when the script is used up; files are read
    from a table; creating and writing the CSV file succeeds. *)
Definition runtime (reversed : bool) (files : gmap string string) : Runtime := {|
  World := list (result Header);
  clientGet _ _ w :=
    match w with
    | [] => (Err "connection refused", [])
    | response :: w => (response, w)
    end;
  ReadFile path _ :=
    match files !! path with
    | Some data => Ok data
    | None => Err "no such file or directory"
    end;
  osCreate _ w := (None, w);
  csvWrite _ _ w := (None, w);
  mapRange V _ m := if reversed then reverse (map_to_list m) else map_to_list m;
  mapRange_perm V _ m :=
    match reversed as b
      return (if b then reverse (map_to_list m) else map_to_list m) ≡ₚ map_to_list m
    with
    | true => reverse_Permutation (map_to_list m)
    | false => Permutation_refl (map_to_list m)
    end;
  missingColor text := text;
  presentColor text := text;
|}.

Definition options (missing : bool) (output input : string) (urls : list string)
  : Options :=
  {| missingOnly := missing; skipSSL := false;
     outputFile := output; inputFile := input; args := urls |}.

(** A response with only the two headers of the end-to-end example. *)
Definition twoHeaders : Header :=
  Textproto.ReadMIMEHeader
    [("content-security-policy", "default-src 'self'"); ("X-Frame-Options", "DENY")].

Definition allHeaders : Header :=
  Textproto.ReadMIMEHeader ((λ name, (name, "1")) <$> requiredHeaders).

End Sim.

(** *** Notions the statements below use *)

(** A URL with a scheme in front: a letter, then letters, digits, [+], [-]
    or [.], then [://] (RFC 3986). *)
Module Scheme.

Local Open Scope char_scope.

Definition isAlpha (c : ascii) : bool := Byte8.isLower c || Byte8.isUpper c.

Fixpoint rest (s : string) : bool :=
  match s with
  | EmptyString => false
  | String c s' =>
      if decide (c = ":") then String.prefix (String "/" (String "/" EmptyString)) s'
      else (isAlpha c || Byte8.isDigit c || bool_decide (c ∈ ["+"; "-"; "."])) && rest s'
  end.

Definition hasScheme (url : string) : bool :=
  match url with
  | EmptyString => false
  | String c s' => isAlpha c && rest s'
  end.

End Scheme.

(** A line of space runes only. *)
Inductive Blank (encodings : list string) : string → Prop :=
| Blank_nil : Blank encodings ""
| Blank_space e s : e ∈ encodings → Blank encodings s → Blank encodings (e +:+ s).

(** The records written to the CSV file in a trace, in order. *)
Definition csvRecords (events : list event) : list (list string) :=
  omap (λ e, match e with CsvRecord _ record => Some record | _ => None end) events.

(** The URL of a data row and its cells. *)
Definition rowURL (record : list string) : string := default "" (head record).
Definition rowCells (record : list string) : list string := tail record.

(** What the network answers to the requests of a run, in order: the
    world changes with every request. *)
Fixpoint outcomes (R : Runtime) (client : bool) (urls : list string) (w : World R)
  : list (string * result Header) :=
  match urls with
  | [] => []
  | url :: urls =>
      let '(resp, w) := clientGet R client (requestURL url) w in
      (url, resp) :: outcomes R client urls w
  end.

(** The URLs fetched with success, with their results, in the order they
    were processed. *)
Definition fetched (log : list (string * result Header))
  : list (string * gmap string bool) :=
  omap (λ '(url, resp),
          match resp with
          | Ok headers => Some (url, checkHeaders headers)
          | Err _ => None
          end) log.

(** A line of the full display. *)
Definition displayLine (R : Runtime) (entry : string * bool) : event :=
  Stdout ("  " +:+ entry.1 +:+ ": " +:+
          (if entry.2 then presentColor R "Present" else missingColor R "Missing")
          +:+ newline).

(** A cell of a data row. *)
Definition cell (headers : gmap string bool) (header : string) : string :=
  if default false (headers !! header) then "Present" else "Missing".

(** The data row of an entry of the aggregate. *)
Definition rowOf (entry : string * gmap string bool) : list string :=
  csvRow entry.1 entry.2.

(** Checks on a list of encodings: none is empty, and none is a proper
    prefix of another, so a string starts with at most one of them. *)
Definition comparable (a b : string) : bool :=
  bool_decide (is_Some (Strings.cutPrefix a b)) ||
  bool_decide (is_Some (Strings.cutPrefix b a)).

Definition prefixFree (encodings : list string) : bool :=
  forallb (λ a, forallb (λ b, implb (comparable a b) (bool_decide (a = b))) encodings)
          encodings.

Definition noEmpty (encodings : list string) : bool :=
  forallb (λ e, negb (bool_decide (e = ""))) encodings.

(** *** Notions for the statements about whole runs *)

(** The requests, the log lines and the printed text of a trace. *)
Definition requests (events : list event) : list (bool * string) :=
  omap (λ e, match e with HttpGet skip url => Some (skip, url) | _ => None end) events.

Definition logged (events : list event) : list string :=
  omap (λ e, match e with Logged text => Some text | _ => None end) events.

Definition printed (events : list event) : list string :=
  omap (λ e, match e with Stdout text => Some text | _ => None end) events.

(** The first line of the full display and the log line of a failed fetch. *)
Definition heading (url : string) : event :=
  Stdout (newline +:+ "Results for " +:+ url +:+ ":" +:+ newline).

Definition fetchErrorLine (url err : string) : string :=
  "Error fetching headers for " +:+ url +:+ ": " +:+ err +:+ newline.

(** The required headers a header set lacks, in the order of the list. *)
Definition missingOf (headers : Header) : list string :=
  filter (λ header, present headers header = false) requiredHeaders.

(** The entries of the result of [checkHeaders], in the order of the list. *)
Definition resultEntries (headers : Header) : list (string * bool) :=
  (λ header, (header, present headers header)) <$> requiredHeaders.

(** What the loop does for one URL, given the answer of the network: the
    [names] and the [entries] are in the order in which the runtime
    visited the result map. *)
Inductive step (R : Runtime) (o : Options) :
    string * result Header → list event → Prop :=
| step_failed url err :
    step R o (url, Err err)
      [HttpGet (skipSSL o) (requestURL url); Logged (fetchErrorLine url err)]
| step_missing url headers names :
    missingOnly o = true →
    names ≡ₚ missingOf headers →
    step R o (url, Ok headers)
      (HttpGet (skipSSL o) (requestURL url)
       :: if decide (names = []) then [] else [Stdout (missingLine url names)])
| step_full url headers entries :
    missingOnly o = false →
    entries ≡ₚ resultEntries headers →
    step R o (url, Ok headers)
      (HttpGet (skipSSL o) (requestURL url)
       :: heading url :: (displayLine R <$> entries)).

(** A fetched URL with a required header missing. *)
Definition incomplete (entry : string * result Header) : bool :=
  match entry.2 with
  | Ok headers => negb (bool_decide (missingOf headers = []))
  | Err _ => false
  end.

(** The log line of an answer, when it is a failure. *)
Definition failureLine (entry : string * result Header) : option string :=
  match entry.2 with
  | Ok _ => None
  | Err err => Some (fetchErrorLine entry.1 err)
  end.

(** A byte that is not the line feed. *)
Definition notNewline (c : ascii) : bool := negb (bool_decide (c = ascii_of_nat 10)).

(** The data row of a URL whose last response had the header set
    [headers]. *)
Definition presenceRow (url : string) (headers : Header) : list string :=
  url :: ((λ header, if present headers header then "Present" else "Missing")
            <$> requiredHeaders).

(** * Properties *)

(** ** Runs of the model *)

Example canonical_key :
  Textproto.CanonicalMIMEHeaderKey "content-security-POLICY" = "Content-Security-Policy" ∧
  Textproto.CanonicalMIMEHeaderKey "x frame" = "x frame".
Proof. by vm_compute. Qed.

Example trim_space :
  Strings.TrimSpace (Strings.utf8 [32; 9; 194; 160; 97; 32; 98; 226; 128; 128; 13]) = "a b".
Proof. by vm_compute. Qed.

Example split_lines :
  Strings.Split ("a" +:+ newline +:+ newline +:+ "b" +:+ newline) (ascii_of_nat 10)
  = ["a"; ""; "b"; ""].
Proof. by vm_compute. Qed.

(** A server that sends only [Content-Security-Policy] and
    [X-Frame-Options]: the four other names are reported missing, here in
    the order of one runtime and in the order of another. *)
Example run_missing_only :
  trace _ (main (Sim.runtime false ∅) (Sim.options true "" "" ["a.example"])
             [Ok Sim.twoHeaders]).2
  = [ HttpGet false "http://a.example";
      Stdout ("a.example is missing: Strict-Transport-Security, Referrer-Policy, "
              +:+ "X-Content-Type-Options, Permissions-Policy" +:+ newline) ].
Proof. by vm_compute. Qed.

Example run_missing_only_reversed :
  trace _ (main (Sim.runtime true ∅) (Sim.options true "" "" ["a.example"])
             [Ok Sim.twoHeaders]).2
  = [ HttpGet false "http://a.example";
      Stdout ("a.example is missing: Permissions-Policy, X-Content-Type-Options, "
              +:+ "Referrer-Policy, Strict-Transport-Security" +:+ newline) ].
Proof. by vm_compute. Qed.

Example run_nothing_missing :
  main (Sim.runtime false ∅) (Sim.options true "" "" ["https://a.example"])
       [Ok Sim.allHeaders]
  = (0%Z, Build_state (Sim.runtime false ∅) [] [HttpGet false "https://a.example"]).
Proof. by vm_compute. Qed.

Example run_full_mode :
  trace _ (main (Sim.runtime false ∅) (Sim.options false "" "" ["a.example"])
             [Ok Sim.twoHeaders]).2
  = [ HttpGet false "http://a.example";
      Stdout (newline +:+ "Results for a.example:" +:+ newline);
      Stdout ("  Strict-Transport-Security: Missing" +:+ newline);
      Stdout ("  Content-Security-Policy: Present" +:+ newline);
      Stdout ("  Referrer-Policy: Missing" +:+ newline);
      Stdout ("  X-Content-Type-Options: Missing" +:+ newline);
      Stdout ("  X-Frame-Options: Present" +:+ newline);
      Stdout ("  Permissions-Policy: Missing" +:+ newline) ].
Proof. by vm_compute. Qed.

(** One URL fails, the run goes on; the CSV file has the rows of the two
    others. *)
Example run_export :
  main (Sim.runtime false ∅)
       (Sim.options true "out.csv" "" ["a.example"; "https://b.example"; "c"])
       [Ok Sim.allHeaders; Err "boom"; Ok Sim.allHeaders]
  = (0%Z, Build_state (Sim.runtime false ∅) []
      [ HttpGet false "http://a.example";
        HttpGet false "https://b.example";
        Logged ("Error fetching headers for https://b.example: boom" +:+ newline);
        HttpGet false "http://c";
        CsvRecord "out.csv" ("URL" :: requiredHeaders);
        CsvRecord "out.csv" ["c"; "Present"; "Present"; "Present"; "Present"; "Present"; "Present"];
        CsvRecord "out.csv" ["a.example"; "Present"; "Present"; "Present"; "Present"; "Present"; "Present"];
        Stdout (newline +:+ "Results exported to out.csv" +:+ newline) ]).
Proof. by vm_compute. Qed.

(** An input file that cannot be read ends the run before any request. *)
Example run_unreadable_file :
  main (Sim.runtime false ∅) (Sim.options false "" "urls.txt" ["a.example"])
       [Ok Sim.allHeaders]
  = (1%Z, Build_state (Sim.runtime false ∅) [Ok Sim.allHeaders]
      [ Logged ("Error reading URLs from file: no such file or directory" +:+ newline) ]).
Proof. by vm_compute. Qed.

(** ** Case analysis on bytes *)

Lemma Byte8_all_complete (c : ascii) : c ∈ Byte8.all.
Proof.
  unfold Byte8.all. apply list_elem_of_fmap. exists (nat_of_ascii c). split.
  - by rewrite ascii_nat_embedding.
  - apply elem_of_seq. pose proof (nat_ascii_bounded c). lia.
Qed.

Lemma forall_bytes (P : ascii → bool) :
  forallb P Byte8.all = true → ∀ c, P c = true.
Proof.
  intros H c. rewrite forallb_forall in H. apply H.
  apply list_elem_of_In, Byte8_all_complete.
Qed.

Lemma forall_bytes2 (P : ascii → ascii → bool) :
  forallb (λ a, forallb (P a) Byte8.all) Byte8.all = true → ∀ a b, P a b = true.
Proof.
  intros H a. apply forall_bytes. revert a. by apply forall_bytes.
Qed.

(** Canonicalising a byte changes its case at most. *)
Lemma canonByte_toLower upper c :
  Byte8.toLower (Textproto.canonByte upper c) = Byte8.toLower c.
Proof.
  pose proof (forall_bytes
    (λ c, bool_decide (∀ u : bool,
            Byte8.toLower (Textproto.canonByte u c) = Byte8.toLower c))) as H.
  specialize (H ltac:(vm_compute; reflexivity) c).
  apply bool_decide_eq_true in H. apply H.
Qed.

(** Two bytes that differ in case only are both token bytes or both not,
    and canonicalise to the same byte. *)
Lemma toLower_eq_canon a b :
  Byte8.toLower a = Byte8.toLower b →
  Textproto.validHeaderFieldByte a = Textproto.validHeaderFieldByte b ∧
  ∀ upper, Textproto.canonByte upper a = Textproto.canonByte upper b.
Proof.
  pose proof (forall_bytes2
    (λ a b, bool_decide
       (Byte8.toLower a = Byte8.toLower b →
        Textproto.validHeaderFieldByte a = Textproto.validHeaderFieldByte b ∧
        ∀ u : bool, Textproto.canonByte u a = Textproto.canonByte u b))) as H.
  specialize (H ltac:(vm_compute; reflexivity) a b).
  by apply bool_decide_eq_true in H.
Qed.

Lemma canonBytes_lower upper s :
  Strings.lower (Textproto.canonBytes upper s) = Strings.lower s.
Proof.
  revert upper. induction s as [|c s IH]; intros upper; [done|].
  cbn. unfold Strings.lower in IH. by rewrite canonByte_toLower, IH.
Qed.

Lemma CanonicalMIMEHeaderKey_lower s :
  Strings.lower (Textproto.CanonicalMIMEHeaderKey s) = Strings.lower s.
Proof.
  unfold Textproto.CanonicalMIMEHeaderKey.
  destruct (Strings.all _ s); [apply canonBytes_lower | done].
Qed.

Lemma lower_eq_canonBytes s t :
  Strings.lower s = Strings.lower t →
  Strings.all Textproto.validHeaderFieldByte s
    = Strings.all Textproto.validHeaderFieldByte t ∧
  ∀ upper, Textproto.canonBytes upper s = Textproto.canonBytes upper t.
Proof.
  revert t. induction s as [|a s IH]; intros [|b t] Heq; try done.
  cbn in Heq. injection Heq as Hab Hst.
  destruct (toLower_eq_canon a b Hab) as [Hvalid Hcanon].
  destruct (IH t Hst) as [Hall Hrest]. split.
  - cbn. by rewrite Hvalid, Hall.
  - intros upper. cbn. by rewrite Hcanon, Hrest.
Qed.

(** A name that differs in case only from a token has the canonical key
    of that token. *)
Lemma EqualFold_Canonical s t :
  Strings.all Textproto.validHeaderFieldByte t = true →
  Strings.EqualFold s t = true →
  Textproto.CanonicalMIMEHeaderKey s = Textproto.CanonicalMIMEHeaderKey t.
Proof.
  intros Htoken H. apply bool_decide_eq_true in H.
  destruct (lower_eq_canonBytes s t H) as [Hall Hcanon].
  unfold Textproto.CanonicalMIMEHeaderKey. by rewrite Hall, Htoken, Hcanon.
Qed.

Lemma Canonical_EqualFold s :
  Strings.EqualFold s (Textproto.CanonicalMIMEHeaderKey s) = true.
Proof.
  apply bool_decide_eq_true. by rewrite CanonicalMIMEHeaderKey_lower.
Qed.

Lemma EqualFold_nonempty s t : Strings.EqualFold s t = true → t ≠ "" → s ≠ "".
Proof.
  intros H Ht ->. apply bool_decide_eq_true in H. by destruct t.
Qed.

(** The required names are tokens in canonical form. *)
Lemma requiredHeaders_canonical r :
  r ∈ requiredHeaders →
  r ≠ "" ∧ Strings.all Textproto.validHeaderFieldByte r = true ∧
  Textproto.CanonicalMIMEHeaderKey r = r.
Proof.
  unfold requiredHeaders. rewrite !elem_of_cons, elem_of_nil.
  intros H. repeat destruct H as [->|H]; try done; by vm_compute.
Qed.

(** For a required name, having it as canonical key is being equal to it
    up to case. *)
Lemma required_key_iff r n :
  r ∈ requiredHeaders →
  n ≠ "" ∧ Textproto.CanonicalMIMEHeaderKey n = r ↔ Strings.EqualFold n r = true.
Proof.
  intros Hr. destruct (requiredHeaders_canonical r Hr) as (Hne & Htoken & Hcanon).
  split.
  - intros [_ <-]. apply Canonical_EqualFold.
  - intros H. split; [by eapply EqualFold_nonempty|].
    by rewrite (EqualFold_Canonical n r Htoken H).
Qed.

(** ** The header set of a response *)

Lemma ReadMIMEHeader_snoc fields f :
  Textproto.ReadMIMEHeader (fields ++ [f]) =
  if decide (f.1 = "") then Textproto.ReadMIMEHeader fields
  else Textproto.Add (Textproto.ReadMIMEHeader fields) f.1 f.2.
Proof. unfold Textproto.ReadMIMEHeader. by rewrite foldl_app. Qed.

(** The values stored under a key are those of the fields with that
    canonical name, in wire order; a key is in the map only with a value. *)
Lemma ReadMIMEHeader_lookup fields key :
  Textproto.ReadMIMEHeader fields !! key =
  match (filter (λ f, f.1 ≠ "" ∧ Textproto.CanonicalMIMEHeaderKey f.1 = key) fields).*2 with
  | [] => None
  | values => Some values
  end.
Proof.
  induction fields as [|f fields IH] using rev_ind; [done|].
  rewrite ReadMIMEHeader_snoc, filter_app, fmap_app.
  rewrite filter_cons, filter_nil.
  destruct (decide (f.1 = "")) as [Hempty|Hfull].
  { rewrite decide_False by (by intros [? _]). by rewrite app_nil_r. }
  unfold Textproto.Add.
  destruct (decide (Textproto.CanonicalMIMEHeaderKey f.1 = key)) as [<-|Hother].
  - rewrite decide_True by done. rewrite lookup_insert_eq, IH. cbn.
    by destruct (_.*2).
  - rewrite decide_False by (by intros [_ ?]).
    rewrite lookup_insert_ne by done. by rewrite IH, app_nil_r.
Qed.

Lemma ReadMIMEHeader_present fields key :
  present (Textproto.ReadMIMEHeader fields) key =
  existsb (λ f, bool_decide (f.1 ≠ "" ∧ Textproto.CanonicalMIMEHeaderKey f.1 = key)) fields.
Proof.
  unfold present. rewrite ReadMIMEHeader_lookup.
  induction fields as [|f fields IH].
  { apply bool_decide_eq_false. rewrite filter_nil. by intros [? ?]. }
  rewrite filter_cons. cbn [existsb]. destruct (decide _) as [Hf|Hf]; cbn in Hf.
  - by rewrite (bool_decide_eq_true_2 _ Hf).
  - by rewrite (bool_decide_eq_false_2 _ Hf).
Qed.

(** ** checkHeaders *)

Lemma checkHeaders_fold (f : string → bool) names (m : gmap string bool) key :
  foldl (λ results header, <[header := f header]> results) m names !! key =
  if decide (key ∈ names) then Some (f key) else m !! key.
Proof.
  revert m. induction names as [|name names IH]; intros m; [done|].
  cbn [foldl]. rewrite IH.
  destruct (decide (key ∈ names)) as [Hin|Hnot].
  - rewrite decide_True; [done | by right].
  - destruct (decide (key = name)) as [->|Hne].
    + rewrite decide_True by left. by rewrite lookup_insert_eq.
    + rewrite decide_False by (by intros [?|?]%elem_of_cons).
      by rewrite lookup_insert_ne.
Qed.

Lemma checkHeaders_lookup headers key :
  checkHeaders headers !! key =
  if decide (key ∈ requiredHeaders) then Some (present headers key) else None.
Proof. unfold checkHeaders. by rewrite checkHeaders_fold, lookup_empty. Qed.

Lemma checkHeaders_dom headers :
  dom (checkHeaders headers) = list_to_set requiredHeaders.
Proof.
  apply set_eq. intros key.
  rewrite elem_of_dom, checkHeaders_lookup, elem_of_list_to_set.
  destruct (decide (key ∈ requiredHeaders)); [|by rewrite is_Some_alt].
  split; [done | by eauto].
Qed.

Lemma requiredHeaders_NoDup : NoDup requiredHeaders.
Proof. apply (bool_decide_unpack _). by vm_compute. Qed.

(** C5.  For every response header set, the result of [checkHeaders] has
    exactly the six required header names as keys, each mapped to a
    boolean: a key has an entry if and only if it is a required name, the
    entry of a required name is the boolean of its presence, and the map
    has six entries. *)
Theorem checkHeaders_exactly_required (headers : Header) :
  dom (checkHeaders headers) = list_to_set requiredHeaders ∧
  size (checkHeaders headers) = 6 ∧
  (∀ key, is_Some (checkHeaders headers !! key) ↔ key ∈ requiredHeaders) ∧
  (∀ key, checkHeaders headers !! key =
          if decide (key ∈ requiredHeaders) then Some (present headers key) else None).
Proof.
  split; [apply checkHeaders_dom|]. split; [|split].
  - rewrite <- size_dom, checkHeaders_dom.
    rewrite size_list_to_set by apply requiredHeaders_NoDup. done.
  - intros key. rewrite <- elem_of_dom, checkHeaders_dom. apply elem_of_list_to_set.
  - apply checkHeaders_lookup.
Qed.

(** The lookup of [checkHeaders] is the lookup of the Go map: on a header
    set whose keys are not in canonical form, as the HTTP client never
    builds one, a name in another case is not found. *)
Example checkHeaders_raw_map :
  checkHeaders {["x-frame-options" := ["DENY"]]} !! "X-Frame-Options" = Some false.
Proof. by vm_compute. Qed.

(** C1.  For the header set of any response and each of the six required
    names, [checkHeaders] answers true exactly when the response has a
    field whose name equals the required name up to ASCII case (every
    field carries a value); and the answer depends on the keys of the
    header set only, never on the values. *)
Theorem checkHeaders_presence (fields : list (string * string)) (r : string) :
  r ∈ requiredHeaders →
  checkHeaders (Textproto.ReadMIMEHeader fields) !! r
    = Some (existsb (λ f, Strings.EqualFold f.1 r) fields) ∧
  (checkHeaders (Textproto.ReadMIMEHeader fields) !! r = Some true ↔
   ∃ name value, (name, value) ∈ fields ∧ Strings.EqualFold name r = true) ∧
  (∀ h1 h2 : Header, dom h1 = dom h2 → checkHeaders h1 = checkHeaders h2).
Proof.
  intros Hr.
  assert (checkHeaders (Textproto.ReadMIMEHeader fields) !! r
          = Some (existsb (λ f, Strings.EqualFold f.1 r) fields)) as Hlookup.
  { rewrite checkHeaders_lookup, decide_True by done. f_equal.
    rewrite ReadMIMEHeader_present.
    induction fields as [|f fields IH]; [done|]. cbn [existsb]. rewrite IH.
    f_equal. destruct (Strings.EqualFold f.1 r) eqn:Hfold.
    - apply bool_decide_eq_true. by apply required_key_iff.
    - apply bool_decide_eq_false. intros H%required_key_iff; [congruence | done]. }
  split; [done|]. split.
  - rewrite Hlookup. split.
    + intros [= H]. apply existsb_exists in H as ([name value] & Hin & Hfold).
      exists name, value. split; [by apply list_elem_of_In | done].
    + intros (name & value & Hin & Hfold). f_equal.
      apply existsb_exists. exists (name, value).
      split; [by apply list_elem_of_In | done].
  - intros h1 h2 Hdom. apply map_eq. intros key.
    rewrite !checkHeaders_lookup. case_decide; [|done]. f_equal.
    unfold present. apply bool_decide_ext. by rewrite <- !elem_of_dom, Hdom.
Qed.

Lemma checkHeaders_presence_witness :
  "X-Frame-Options" ∈ requiredHeaders ∧
  checkHeaders (Textproto.ReadMIMEHeader [("x-frame-OPTIONS", "DENY")])
    !! "X-Frame-Options" = Some true.
Proof.
  assert ("X-Frame-Options" ∈ requiredHeaders) as Hr
    by (apply (bool_decide_unpack _); by vm_compute).
  split; [exact Hr|].
  exact (proj1 (checkHeaders_presence [("x-frame-OPTIONS", "DENY")] _ Hr)).
Defined.

(** ** fetchHeaders *)

Lemma app_cons a (p rest : string) : String a p +:+ rest = String a (p +:+ rest).
Proof. reflexivity. Qed.

Lemma HasPrefix_spec s p :
  Strings.HasPrefix s p = true ↔ ∃ rest, s = p +:+ rest.
Proof.
  unfold Strings.HasPrefix. revert s.
  induction p as [|a p IH]; intros [|b s]; cbn.
  - split; [by exists "" | done].
  - split; [by exists (String b s) | done].
  - split; [done|]. intros [rest Hrest]. by rewrite app_cons in Hrest.
  - destruct (ascii_dec a b) as [->|Hne].
    + rewrite IH. split; intros [rest Hrest]; exists rest.
      * by rewrite app_cons, Hrest.
      * rewrite app_cons in Hrest. by injection Hrest.
    + split; [done|]. intros [rest Hrest].
      rewrite app_cons in Hrest. by injection Hrest.
Qed.

(** C6, as the code has it.  [fetchHeaders] leaves a URL that starts with
    the literal [http://] or [https://] unchanged and puts [http://] in
    front of every other URL, whatever that URL starts with; the request
    is made to the resulting URL, and its outcome is what [fetchHeaders]
    returns. *)
Theorem fetchHeaders_requestURL (R : Runtime) (client : bool) (url : string)
    (s : state R) :
  ((∃ rest, url = "http://" +:+ rest ∨ url = "https://" +:+ rest) →
   requestURL url = url) ∧
  ((∀ rest, url ≠ "http://" +:+ rest ∧ url ≠ "https://" +:+ rest) →
   requestURL url = "http://" +:+ url) ∧
  (fetchHeaders R client url s).1
    = (clientGet R client (requestURL url) (world R s)).1 ∧
  world R (fetchHeaders R client url s).2
    = (clientGet R client (requestURL url) (world R s)).2 ∧
  trace R (fetchHeaders R client url s).2
    = trace R s ++ [HttpGet client (requestURL url)].
Proof.
  split; [|split].
  - intros [rest Hrest]. unfold requestURL.
    destruct (Strings.HasPrefix url "http://") eqn:Hhttp; [done|].
    destruct (Strings.HasPrefix url "https://") eqn:Hhttps; [done|].
    destruct Hrest as [Hrest|Hrest].
    + assert (Strings.HasPrefix url "http://" = true) by (apply HasPrefix_spec; eauto).
      congruence.
    + assert (Strings.HasPrefix url "https://" = true) by (apply HasPrefix_spec; eauto).
      congruence.
  - intros Hnone. unfold requestURL.
    destruct (Strings.HasPrefix url "http://") eqn:Hhttp.
    { apply HasPrefix_spec in Hhttp as [rest ?]. by destruct (Hnone rest). }
    destruct (Strings.HasPrefix url "https://") eqn:Hhttps; [|done].
    apply HasPrefix_spec in Hhttps as [rest ?]. by destruct (Hnone rest).
  - unfold fetchHeaders. by destruct (clientGet R client _ _).
Qed.

Lemma fetchHeaders_requestURL_witness :
  requestURL "https://example.com" = "https://example.com".
Proof.
  apply (proj1 (fetchHeaders_requestURL (Sim.runtime false ∅) false
                  "https://example.com" (Build_state (Sim.runtime false ∅) [] []))).
  exists "example.com". by right.
Defined.

(** C6 as stated fails: a URL with a scheme other than [http] or [https]
    in lower case is not passed through, [http://] is put in front. *)
Lemma requestURL_other_scheme :
  ¬ (∀ url, Scheme.hasScheme url = true → requestURL url = url).
Proof.
  intros H. specialize (H "ftp://example.com" eq_refl). by vm_compute in H.
Qed.

(** ** The loop over the URLs *)

Lemma processURL_error (R : Runtime) (o : Options) agg (s : state R) url err w' :
  clientGet R (skipSSL o) (requestURL url) (world R s) = (Err err, w') →
  processURL R o (agg, s) url =
  (agg, {| world := w';
           trace := trace R s ++
             [HttpGet (skipSSL o) (requestURL url);
              Logged ("Error fetching headers for " +:+ url +:+ ": " +:+ err +:+ newline)] |}).
Proof.
  intros Hget. unfold processURL, fetchHeaders. rewrite Hget. cbn.
  unfold emit. cbn. by rewrite <- app_assoc.
Qed.

Lemma displayResults_world (R : Runtime) url results (s : state R) :
  world R (displayResults R url results s) = world R s.
Proof.
  unfold displayResults.
  generalize (mapRange R (world R (emit R (Stdout (newline +:+ "Results for " +:+ url +:+ ":" +:+ newline)) s)) results).
  intros visited.
  change (world R s) with
    (world R (emit R (Stdout (newline +:+ "Results for " +:+ url +:+ ":" +:+ newline)) s)).
  generalize (emit R (Stdout (newline +:+ "Results for " +:+ url +:+ ":" +:+ newline)) s).
  induction visited as [|[header [|]] visited IHv]; intros s0; cbn; [done|..];
    by rewrite IHv.
Qed.

(** The aggregate after the loop, from the answers of the network: the
    entry of a URL is the result of its last successful fetch. *)
Lemma processURLs_fold_aggregate (R : Runtime) (o : Options) urls agg (s : state R) :
  (foldl (processURL R o) (agg, s) urls).1 =
  foldl (λ agg '(url, results), <[url := results]> agg) agg
        (fetched (outcomes R (skipSSL o) urls (world R s))).
Proof.
  revert agg s. induction urls as [|url urls IH]; intros agg s; [done|].
  cbn [foldl outcomes].
  destruct (clientGet R (skipSSL o) (requestURL url) (world R s)) as [resp w'] eqn:Hget.
  destruct (processURL R o (agg, s) url) as [agg' s'] eqn:Hstep.
  rewrite IH.
  assert (world R s' = w' ∧
          agg' = match resp with
                 | Ok headers => <[url := checkHeaders headers]> agg
                 | Err _ => agg
                 end) as [-> ->].
  { revert Hstep. unfold processURL, fetchHeaders. rewrite Hget.
    destruct resp as [headers|err]; cbn.
    - destruct (missingOnly o); [destruct (decide _)|]; intros [= <- <-]; try done.
      split; [|done]. by rewrite displayResults_world.
    - by intros [= <- <-]. }
  by destruct resp.
Qed.

Lemma fold_insert_list_to_map (entries : list (string * gmap string bool))
    (agg : gmap string (gmap string bool)) :
  foldl (λ agg '(url, results), <[url := results]> agg) agg entries
  = list_to_map (reverse entries) ∪ agg.
Proof.
  revert agg. induction entries as [|[url results] entries IH]; intros agg.
  - cbn. by rewrite (left_id_L ∅ (∪)).
  - cbn [foldl]. rewrite IH, reverse_cons, list_to_map_app. cbn.
    rewrite insert_empty, <- (assoc_L (∪)). by rewrite <- insert_union_singleton_l.
Qed.

Lemma processURLs_aggregate (R : Runtime) (o : Options) urls (s : state R) :
  (processURLs R o urls s).1
  = list_to_map (reverse (fetched (outcomes R (skipSSL o) urls (world R s)))).
Proof.
  unfold processURLs. rewrite processURLs_fold_aggregate, fold_insert_list_to_map.
  by rewrite (right_id_L ∅ (∪)).
Qed.

(** ** Traces *)

Lemma csvRecords_app a b : csvRecords (a ++ b) = csvRecords a ++ csvRecords b.
Proof. apply omap_app. Qed.

Lemma csvRecords_written path (records : list (list string)) :
  csvRecords (CsvRecord path <$> records) = records.
Proof.
  unfold csvRecords. induction records as [|r records IH]; [done|].
  cbn. by f_equal.
Qed.

Lemma displayResults_trace (R : Runtime) url results (s : state R) :
  trace R (displayResults R url results s) =
  trace R s ++
  Stdout (newline +:+ "Results for " +:+ url +:+ ":" +:+ newline)
  :: (displayLine R <$> mapRange R (world R s) results).
Proof.
  unfold displayResults.
  change (world R (emit R _ s)) with (world R s).
  generalize (mapRange R (world R s) results). intros visited.
  rewrite (cons_middle _ (trace R s)), (assoc_L (++)).
  change (trace R s ++ [_]) with
    (trace R (emit R (Stdout (newline +:+ "Results for " +:+ url +:+ ":" +:+ newline)) s)).
  generalize (emit R (Stdout (newline +:+ "Results for " +:+ url +:+ ":" +:+ newline)) s).
  induction visited as [|[header [|]] visited IHv]; intros s0; cbn [foldl fmap list_fmap].
  - by rewrite app_nil_r.
  - rewrite IHv. cbn. by rewrite <- (assoc_L (++)).
  - rewrite IHv. cbn. by rewrite <- (assoc_L (++)).
Qed.

Lemma csvRecords_displayLine (R : Runtime) (visited : list (string * bool)) :
  csvRecords (displayLine R <$> visited) = [].
Proof. by induction visited. Qed.

Lemma csvRecords_snoc evs e :
  csvRecords [e] = [] → csvRecords (evs ++ [e]) = csvRecords evs.
Proof. intros He. by rewrite csvRecords_app, He, app_nil_r. Qed.

Lemma processURL_csvRecords (R : Runtime) (o : Options) agg (s : state R) url :
  csvRecords (trace R (processURL R o (agg, s) url).2) = csvRecords (trace R s).
Proof.
  unfold processURL, fetchHeaders.
  destruct (clientGet R (skipSSL o) (requestURL url) (world R s)) as [[headers|err] w'].
  - destruct (missingOnly o); [destruct (decide _)|].
    + unfold emit. cbn [snd trace]. by rewrite !csvRecords_snoc.
    + cbn [snd trace]. by rewrite csvRecords_snoc.
    + cbn [snd]. rewrite displayResults_trace, csvRecords_app.
      change (csvRecords (Stdout ?t :: ?l)) with (csvRecords l).
      rewrite csvRecords_displayLine, app_nil_r.
      cbn [trace]. by rewrite csvRecords_snoc.
  - unfold emit. cbn [snd trace]. by rewrite !csvRecords_snoc.
Qed.

Lemma loop_csvRecords (R : Runtime) (o : Options) urls agg (s : state R) :
  csvRecords (trace R (foldl (processURL R o) (agg, s) urls).2) = csvRecords (trace R s).
Proof.
  revert agg s. induction urls as [|url urls IH]; intros agg s; [done|].
  cbn [foldl]. pose proof (processURL_csvRecords R o agg s url) as Hstep.
  destruct (processURL R o (agg, s) url) as [agg' s']. by rewrite IH.
Qed.

(** ** The CSV file *)

Lemma csvRow_fold (headers : gmap string bool) names (row : list string) :
  foldl (λ row header,
           if default false (headers !! header)
           then row ++ ["Present"] else row ++ ["Missing"]) row names
  = row ++ (cell headers <$> names).
Proof.
  revert row. induction names as [|h hs IH]; intros row.
  - by rewrite app_nil_r.
  - cbn [foldl]. rewrite IH, fmap_cons. unfold cell at 2.
    destruct (default false (headers !! h)); by rewrite <- (assoc_L (++)).
Qed.

Lemma csvRow_cells url headers :
  csvRow url headers = url :: (cell headers <$> requiredHeaders).
Proof. unfold csvRow. by rewrite csvRow_fold. Qed.

Lemma writeRecord_trace (R : Runtime) path record (s : state R) :
  trace R (writeRecord R path record s).2 =
  trace R s ++ match (writeRecord R path record s).1 with
               | None => [CsvRecord path record]
               | Some _ => []
               end.
Proof.
  unfold writeRecord. destruct (csvWrite R path record (world R s)) as [[err|] w]; cbn;
    [by rewrite app_nil_r | done].
Qed.

Lemma writeRows_trace (R : Runtime) path entries (s : state R) :
  ∃ written rest,
    entries = written ++ rest ∧
    trace R (writeRows R path entries s).2
      = trace R s ++ (CsvRecord path <$> (rowOf <$> written)) ∧
    ((writeRows R path entries s).1 = None → rest = []).
Proof.
  revert s. induction entries as [|[url headers] entries IH]; intros s.
  { exists [], []. cbn. by rewrite app_nil_r. }
  cbn [writeRows]. pose proof (writeRecord_trace R path (csvRow url headers) s) as Hrec.
  destruct (writeRecord R path (csvRow url headers) s) as [[err|] s'].
  - exists [], ((url, headers) :: entries). cbn in *. by rewrite Hrec.
  - destruct (IH s') as (written & rest & -> & Htrace & Hall).
    exists ((url, headers) :: written), rest. cbn in *.
    by rewrite Htrace, Hrec, <- (assoc_L (++)).
Qed.

Lemma writeResultsToCSV_trace (R : Runtime) path agg (s : state R) :
  ∃ entries written rest,
    entries ≡ₚ map_to_list agg ∧
    ("URL" :: requiredHeaders) :: (rowOf <$> entries) = written ++ rest ∧
    trace R (writeResultsToCSV R path agg s).2
      = trace R s ++ (CsvRecord path <$> written) ∧
    ((writeResultsToCSV R path agg s).1 = None → rest = []).
Proof.
  unfold writeResultsToCSV.
  destruct (osCreate R path (world R s)) as [[err|] w].
  { exists (map_to_list agg), [], (("URL" :: requiredHeaders) :: (rowOf <$> map_to_list agg)).
    cbn. by rewrite app_nil_r. }
  set (s1 := {| world := w; trace := trace R s |}).
  pose proof (writeRecord_trace R path (["URL"] ++ requiredHeaders) s1) as Hhead.
  destruct (writeRecord R path (["URL"] ++ requiredHeaders) s1) as [[err|] s2];
    cbn [fst snd] in Hhead.
  { exists (map_to_list agg), [], (("URL" :: requiredHeaders) :: (rowOf <$> map_to_list agg)).
    cbn in *. by rewrite Hhead. }
  destruct (writeRows_trace R path (mapRange R (world R s2) agg) s2)
    as (written & rest & Hsplit & Htrace & Hall).
  exists (mapRange R (world R s2) agg), (("URL" :: requiredHeaders) :: (rowOf <$> written)), (rowOf <$> rest).
  split; [apply mapRange_perm|]. split; [|split].
  - by rewrite Hsplit, fmap_app.
  - rewrite Htrace, Hhead. cbn. by rewrite <- (assoc_L (++)).
  - intros Hok. by rewrite (Hall Hok).
Qed.

(** The records of a whole run: none, or a prefix (all of them when the
    run ends with status 0) of the header row and the rows of the
    aggregate in the order the runtime visits it. *)
Lemma main_csv (R : Runtime) (o : Options) (w : World R) :
  (csvRecords (trace R (main R o w).2) = [] ∧
   (outputFile o = "" ∨ (main R o w).1 = 1%Z)) ∨
  ∃ urls entries rest,
    collectURLs R o w = Ok urls ∧ urls ≠ [] ∧ outputFile o ≠ "" ∧
    entries ≡ₚ map_to_list (processURLs R o urls {| world := w; trace := [] |}).1 ∧
    ("URL" :: requiredHeaders) :: (rowOf <$> entries)
      = csvRecords (trace R (main R o w).2) ++ rest ∧
    ((main R o w).1 = 0%Z → rest = []).
Proof.
  unfold main. destruct (collectURLs R o w) as [urls|err];
    [|left; split; [done | by right]].
  destruct (decide (length urls = 0)) as [Hempty|Hurls];
    [left; split; [done | by right]|].
  pose proof (loop_csvRecords R o urls ∅ {| world := w; trace := [] |}) as Hloop.
  fold (processURLs R o urls {| world := w; trace := [] |}) in Hloop.
  destruct (processURLs R o urls {| world := w; trace := [] |}) as [agg s1] eqn:Hrun.
  cbn [fst snd trace] in Hloop.
  destruct (decide (outputFile o ≠ "")) as [Hout|Hnone].
  2:{ left. split; [done|]. left. by destruct (decide (outputFile o = "")). }
  right.
  destruct (writeResultsToCSV_trace R (outputFile o) agg s1)
    as (entries & written & rest & Hperm & Hsplit & Htrace & Hall).
  exists urls, entries, rest.
  split; [done|]. split; [by intros ->|]. split; [done|]. split; [by rewrite Hrun|].
  assert (∀ (e : event) s2,
            csvRecords [e] = [] →
            trace R s2 = trace R s1 ++ (CsvRecord (outputFile o) <$> written) →
            csvRecords (trace R (emit R e s2)) = written) as Hemit.
  { intros e s2 He Hs2. unfold emit. cbn [trace].
    rewrite csvRecords_snoc by done.
    by rewrite Hs2, csvRecords_app, Hloop, csvRecords_written. }
  destruct (writeResultsToCSV R (outputFile o) agg s1) as [[err|] s2];
    cbn [fst snd] in *.
  - rewrite (Hemit _ s2) by done. split; [done | by intros]. 
  - rewrite (Hemit _ s2) by done. split; [done | by auto].
Qed.

(** C8.  When the combined URL list is empty, the run prints the usage
    text and ends with status 1; that line is its whole trace, so no
    request was made, and the world is as it was. *)
Theorem main_no_urls (R : Runtime) (o : Options) (w : World R) :
  collectURLs R o w = Ok [] →
  main R o w = (1%Z, {| world := w; trace := [Stdout (usage +:+ newline)] |}) ∧
  (∀ skip url, HttpGet skip url ∉ trace R (main R o w).2).
Proof.
  intros Hurls.
  assert (main R o w = (1%Z, {| world := w; trace := [Stdout (usage +:+ newline)] |}))
    as Hmain by (unfold main; by rewrite Hurls).
  split; [done|]. intros skip url. rewrite Hmain. cbn.
  by intros [?|?%elem_of_nil]%elem_of_cons.
Qed.

Lemma main_no_urls_witness :
  main (Sim.runtime false ∅) (Sim.options false "" "" []) [Ok Sim.allHeaders]
  = (1%Z, Build_state (Sim.runtime false ∅) [Ok Sim.allHeaders]
            [Stdout (usage +:+ newline)]).
Proof.
  apply (main_no_urls (Sim.runtime false ∅) (Sim.options false "" "" [])).
  reflexivity.
Defined.

(** C9.  When the fetch of a URL fails, the loop makes the request, logs
    the failure and nothing else: nothing is printed for the URL, the
    aggregate for the CSV file is unchanged, and the loop goes on with the
    remaining URLs.  A URL none of whose fetches succeeds has no entry in
    the aggregate of the run. *)
Theorem fetch_failure_skipped (R : Runtime) (o : Options)
    (agg : gmap string (gmap string bool)) (s : state R)
    (url err : string) (w' : World R) :
  clientGet R (skipSSL o) (requestURL url) (world R s) = (Err err, w') →
  let s' := {| world := w';
               trace := trace R s ++
                 [HttpGet (skipSSL o) (requestURL url);
                  Logged ("Error fetching headers for " +:+ url +:+ ": " +:+ err +:+ newline)] |} in
  processURL R o (agg, s) url = (agg, s') ∧
  (∀ remaining, foldl (processURL R o) (agg, s) (url :: remaining)
                = foldl (processURL R o) (agg, s') remaining) ∧
  (∀ urls (s0 : state R),
     (∀ headers, (url, Ok headers) ∉ outcomes R (skipSSL o) urls (world R s0)) →
     (processURLs R o urls s0).1 !! url = None).
Proof.
  intros Hget s'. pose proof (processURL_error R o agg s url err w' Hget) as Hstep.
  split; [done|]. split.
  - intros remaining. cbn [foldl]. by rewrite Hstep.
  - intros urls s0 Hnever. rewrite processURLs_aggregate.
    apply not_elem_of_list_to_map_1. rewrite fmap_reverse, elem_of_reverse.
    intros ([u results] & Hu & Hin)%list_elem_of_fmap. cbn in Hu. subst u.
    apply list_elem_of_omap in Hin as ([u [headers|e]] & Hin & Hsome); [|done].
    injection Hsome as -> _. by apply (Hnever headers).
Qed.

Lemma fetch_failure_skipped_witness :
  processURL (Sim.runtime false ∅) (Sim.options false "" "" ["a.example"])
    (∅, Build_state (Sim.runtime false ∅) [Err "timeout"] []) "a.example"
  = (∅, Build_state (Sim.runtime false ∅) []
          [HttpGet false "http://a.example";
           Logged ("Error fetching headers for a.example: timeout" +:+ newline)]).
Proof.
  apply (fetch_failure_skipped (Sim.runtime false ∅)
           (Sim.options false "" "" ["a.example"]) ∅
           (Build_state (Sim.runtime false ∅) [Err "timeout"] [])
           "a.example" "timeout" []).
  reflexivity.
Defined.

(** ** The aggregate and the rows of the CSV file *)

Lemma fetched_app log1 log2 : fetched (log1 ++ log2) = fetched log1 ++ fetched log2.
Proof. apply omap_app. Qed.

Lemma fetched_not_elem log url :
  (∀ headers, (url, Ok headers) ∉ log) → url ∉ (fetched log).*1.
Proof.
  intros Hnever ([u results] & Hu & Hin)%list_elem_of_fmap. cbn in Hu. subst u.
  apply list_elem_of_omap in Hin as ([u [headers|e]] & Hin & Hsome); [|done].
  injection Hsome as -> _. by apply (Hnever headers).
Qed.

Lemma rowURL_rowOf entry : rowURL (rowOf entry) = entry.1.
Proof. unfold rowOf. by rewrite csvRow_cells. Qed.

Lemma rowURL_rows (entries : list (string * gmap string bool)) :
  rowURL <$> (rowOf <$> entries) = entries.*1.
Proof.
  induction entries as [|entry entries IH]; [done|].
  by rewrite !fmap_cons, IH, rowURL_rowOf.
Qed.

Lemma aggregate_dom (R : Runtime) (o : Options) urls (s : state R) :
  dom (processURLs R o urls s).1
  = list_to_set (fetched (outcomes R (skipSSL o) urls (world R s))).*1.
Proof.
  rewrite processURLs_aggregate, dom_list_to_map_L, fmap_reverse.
  apply list_to_set_perm_L, reverse_Permutation.
Qed.

(** C10.  The aggregate is keyed by the URL string as given: the entry of
    a URL is the result of its last successful fetch, whatever was stored
    for it before, and the data rows of the CSV file of a run have
    pairwise different URLs. *)
Theorem aggregate_keyed_by_url (R : Runtime) (o : Options) :
  (∀ urls (s : state R) before url headers after,
     outcomes R (skipSSL o) urls (world R s) = before ++ (url, Ok headers) :: after →
     (∀ later, (url, Ok later) ∉ after) →
     (processURLs R o urls s).1 !! url = Some (checkHeaders headers)) ∧
  (∀ w, NoDup (rowURL <$> tail (csvRecords (trace R (main R o w).2)))).
Proof.
  split.
  - intros urls s before url headers after Hlog Hlast.
    rewrite processURLs_aggregate, Hlog, fetched_app. cbn [fetched omap list_omap].
    fold (fetched after). rewrite reverse_app, reverse_cons, !list_to_map_app.
    apply lookup_union_Some_l. rewrite lookup_union_r.
    + cbn. apply lookup_insert_eq.
    + apply not_elem_of_list_to_map_1. rewrite fmap_reverse, elem_of_reverse.
      by apply fetched_not_elem.
  - intros w. destruct (main_csv R o w)
      as [[-> _]|(urls & entries & rest & _ & _ & _ & Hperm & Hsplit & _)].
    { cbn. constructor. }
    destruct (csvRecords (trace R (main R o w).2)) as [|header rows].
    { cbn. constructor. }
    cbn [tail]. injection Hsplit as _ Hrows.
    assert (NoDup ((rowURL <$> rows) ++ (rowURL <$> rest))) as Hnodup.
    { rewrite <- fmap_app, <- Hrows, rowURL_rows, Hperm.
      apply NoDup_fst_map_to_list. }
    by apply NoDup_app in Hnodup as [? _].
Qed.

Lemma aggregate_keyed_by_url_witness :
  (processURLs (Sim.runtime false ∅) (Sim.options false "out.csv" "" [])
     ["a.example"; "a.example"]
     (Build_state (Sim.runtime false ∅) [Ok Sim.twoHeaders; Ok Sim.allHeaders] [])).1
    !! "a.example" = Some (checkHeaders Sim.allHeaders).
Proof.
  apply (proj1 (aggregate_keyed_by_url (Sim.runtime false ∅)
                  (Sim.options false "out.csv" "" []))
           ["a.example"; "a.example"]
           (Build_state (Sim.runtime false ∅) [Ok Sim.twoHeaders; Ok Sim.allHeaders] [])
           [("a.example", Ok Sim.twoHeaders)] "a.example" Sim.allHeaders []).
  - reflexivity.
  - intros later Hin. by apply elem_of_nil in Hin.
Defined.

(** C3, as the code has it.  For every aggregate, a CSV export that
    succeeds writes the header row and then one row for each URL of the
    aggregate, in the order in which the runtime visits the map: some
    order, which need not be the order in which the URLs were
    processed. *)
Theorem csv_rows_any_order (R : Runtime) (path : string)
    (agg : gmap string (gmap string bool)) (s : state R) :
  (writeResultsToCSV R path agg s).1 = None →
  ∃ entries,
    entries ≡ₚ map_to_list agg ∧
    (∀ url results, (url, results) ∈ entries ↔ agg !! url = Some results) ∧
    trace R (writeResultsToCSV R path agg s).2
      = trace R s ++
        (CsvRecord path <$> ("URL" :: requiredHeaders) :: (rowOf <$> entries)).
Proof.
  intros Hok.
  destruct (writeResultsToCSV_trace R path agg s)
    as (entries & written & rest & Hperm & Hsplit & Htrace & Hall).
  rewrite (Hall Hok), app_nil_r in Hsplit. subst written.
  exists entries. split; [done|]. split; [|done].
  intros url results. rewrite Hperm. apply elem_of_map_to_list.
Qed.

Lemma csv_rows_any_order_witness :
  ∃ entries,
    entries ≡ₚ map_to_list ({["a.example" := checkHeaders Sim.twoHeaders]}
                             : gmap string (gmap string bool)) ∧
    (∀ url results,
       (url, results) ∈ entries ↔
       ({["a.example" := checkHeaders Sim.twoHeaders]}
          : gmap string (gmap string bool)) !! url = Some results) ∧
    trace (Sim.runtime false ∅)
      (writeResultsToCSV (Sim.runtime false ∅) "out.csv"
         {["a.example" := checkHeaders Sim.twoHeaders]}
         (Build_state (Sim.runtime false ∅) [] [])).2
      = [] ++ (CsvRecord "out.csv" <$> ("URL" :: requiredHeaders) :: (rowOf <$> entries)).
Proof.
  apply (csv_rows_any_order (Sim.runtime false ∅) "out.csv"
           {["a.example" := checkHeaders Sim.twoHeaders]}
           (Build_state (Sim.runtime false ∅) [] [])).
  reflexivity.
Defined.

(** C3 as stated fails: there is a run, with two URLs both fetched, whose
    rows are not in the order in which the URLs were processed. *)
Lemma csv_rows_not_in_processing_order :
  ¬ (∀ (R : Runtime) (o : Options) (w : World R),
       outputFile o ≠ "" → (main R o w).1 = 0%Z →
       ∃ urls, collectURLs R o w = Ok urls ∧
         csvRecords (trace R (main R o w).2)
         = ("URL" :: requiredHeaders)
           :: (rowOf <$> fetched (outcomes R (skipSSL o) urls w))).
Proof.
  intros H.
  destruct (H (Sim.runtime false ∅)
              (Sim.options false "out.csv" "" ["b.example"; "a.example"])
              [Ok Sim.twoHeaders; Ok Sim.allHeaders])
    as (urls & Hurls & Hrows); [done | done |].
  injection Hurls as <-. vm_compute in Hrows. discriminate Hrows.
Qed.

(** C4, as the code has it.  In a run that exports the CSV file, the
    number of records written is one, the header row, plus the number of
    distinct URL strings fetched with success; every data row has six
    cells after the URL and each is the string Present or the string
    Missing. *)
Theorem csv_row_count (R : Runtime) (o : Options) (w : World R) :
  outputFile o ≠ "" → (main R o w).1 = 0%Z →
  ∃ urls,
    collectURLs R o w = Ok urls ∧
    length (csvRecords (trace R (main R o w).2))
      = 1 + size (list_to_set (fetched (outcomes R (skipSSL o) urls w)).*1 : gset string) ∧
    (∀ record, record ∈ tail (csvRecords (trace R (main R o w).2)) →
       length (rowCells record) = 6 ∧
       ∀ text, text ∈ rowCells record → text = "Present" ∨ text = "Missing").
Proof.
  intros Hout Hexit.
  destruct (main_csv R o w)
    as [[_ [?|?]]|(urls & entries & rest & Hurls & _ & _ & Hperm & Hsplit & Hall)];
    [done | congruence |].
  rewrite (Hall Hexit), app_nil_r in Hsplit. rewrite <- Hsplit.
  exists urls. split; [done|]. split.
  - cbn [length]. rewrite length_fmap, Hperm, length_map_to_list.
    pose proof (aggregate_dom R o urls {| world := w; trace := [] |}) as Hdom.
    cbn [world] in Hdom. by rewrite <- Hdom, size_dom.
  - cbn [tail]. intros record ([url results] & -> & _)%list_elem_of_fmap.
    unfold rowOf, rowCells. rewrite csvRow_cells. cbn [tail fst snd]. split.
    + by rewrite length_fmap.
    + intros text (header & -> & _)%list_elem_of_fmap. unfold cell.
      destruct (default false (results !! header)); [by left | by right].
Qed.

Lemma csv_row_count_witness :
  ∃ urls,
    collectURLs (Sim.runtime false ∅)
      (Sim.options true "out.csv" "" ["a.example"; "a.example"])
      [Ok Sim.twoHeaders; Ok Sim.allHeaders] = Ok urls ∧
    length (csvRecords (trace (Sim.runtime false ∅)
      (main (Sim.runtime false ∅)
         (Sim.options true "out.csv" "" ["a.example"; "a.example"])
         [Ok Sim.twoHeaders; Ok Sim.allHeaders]).2))
      = 1 + size (list_to_set (fetched (outcomes (Sim.runtime false ∅) false urls
                    [Ok Sim.twoHeaders; Ok Sim.allHeaders])).*1 : gset string) ∧
    (∀ record, record ∈ tail (csvRecords (trace (Sim.runtime false ∅)
      (main (Sim.runtime false ∅)
         (Sim.options true "out.csv" "" ["a.example"; "a.example"])
         [Ok Sim.twoHeaders; Ok Sim.allHeaders]).2)) →
       length (rowCells record) = 6 ∧
       ∀ text, text ∈ rowCells record → text = "Present" ∨ text = "Missing").
Proof.
  apply (csv_row_count (Sim.runtime false ∅)
           (Sim.options true "out.csv" "" ["a.example"; "a.example"])
           [Ok Sim.twoHeaders; Ok Sim.allHeaders]).
  - discriminate.
  - reflexivity.
Defined.

(** C4 as stated fails: a URL given twice and fetched twice has one row. *)
Lemma csv_row_count_duplicates :
  ¬ (∀ (R : Runtime) (o : Options) (w : World R),
       outputFile o ≠ "" → (main R o w).1 = 0%Z →
       ∃ urls, collectURLs R o w = Ok urls ∧
         length (csvRecords (trace R (main R o w).2))
         = 1 + length (fetched (outcomes R (skipSSL o) urls w))).
Proof.
  intros H.
  destruct (H (Sim.runtime false ∅)
              (Sim.options true "out.csv" "" ["a.example"; "a.example"])
              [Ok Sim.twoHeaders; Ok Sim.allHeaders])
    as (urls & Hurls & Hcount); [done | done |].
  injection Hurls as <-. vm_compute in Hcount. discriminate Hcount.
Qed.

(** ** Missing-only mode *)

Lemma missingHeaders_fold (visited : list (string * bool)) (missing : list string) :
  foldl (λ missing '(header, present),
           if negb present then missing ++ [header] else missing) missing visited
  = missing ++ (filter (λ e, e.2 = false) visited).*1.
Proof.
  revert missing. induction visited as [|[header [|]] visited IH]; intros missing.
  - by rewrite app_nil_r.
  - cbn [foldl negb]. rewrite IH, filter_cons. by rewrite decide_False.
  - cbn [foldl negb]. rewrite IH, filter_cons, decide_True by done.
    by rewrite fmap_cons, <- (assoc_L (++)).
Qed.

Lemma missingHeaders_filter (visited : list (string * bool)) :
  missingHeaders visited = (filter (λ e, e.2 = false) visited).*1.
Proof. unfold missingHeaders. by rewrite missingHeaders_fold. Qed.

(** The entries of the result of [checkHeaders], up to order. *)
Lemma checkHeaders_entries headers :
  map_to_list (checkHeaders headers)
  ≡ₚ (λ header, (header, present headers header)) <$> requiredHeaders.
Proof.
  apply NoDup_Permutation.
  - apply NoDup_map_to_list.
  - apply NoDup_fmap_2_strong; [|apply requiredHeaders_NoDup].
    by intros ?? _ _ [= ->].
  - intros [header flag]. rewrite elem_of_map_to_list, checkHeaders_lookup.
    rewrite list_elem_of_fmap. split.
    + destruct (decide (header ∈ requiredHeaders)) as [Hin|]; [|done].
      intros [= <-]. by exists header.
    + intros (r & [= -> ->] & Hin). by rewrite decide_True.
Qed.

Lemma filter_missing (f : string → bool) (names : list string) :
  (filter (λ e : string * bool, e.2 = false) ((λ name, (name, f name)) <$> names)).*1
  = filter (λ name, f name = false) names.
Proof.
  induction names as [|name names IH]; [done|].
  rewrite fmap_cons, !filter_cons. cbn [snd].
  destruct (decide (f name = false)); [rewrite fmap_cons|]; by rewrite IH.
Qed.

(** C2, as the code has it.  In missing-only mode, after a successful
    fetch: when no required header is missing nothing is printed for the
    URL; when some are, exactly one line is printed, the URL followed by
    exactly the missing names, each once, separated by a comma and a
    space, in the order in which the runtime visits the result map, which
    is some order of those names. *)
Theorem missing_only_line (R : Runtime) (o : Options)
    (agg : gmap string (gmap string bool)) (s : state R)
    (url : string) (headers : Header) (w' : World R) :
  missingOnly o = true →
  clientGet R (skipSSL o) (requestURL url) (world R s) = (Ok headers, w') →
  let missing := filter (λ header, present headers header = false) requiredHeaders in
  ∃ names,
    names ≡ₚ missing ∧
    trace R (processURL R o (agg, s) url).2
    = trace R s ++
      HttpGet (skipSSL o) (requestURL url)
      :: (if decide (missing = []) then []
          else [Stdout (url +:+ " is missing: " +:+ Strings.Join names ", " +:+ newline)]).
Proof.
  intros Hmode Hget missing.
  exists (missingHeaders (mapRange R w' (checkHeaders headers))).
  assert (missingHeaders (mapRange R w' (checkHeaders headers)) ≡ₚ missing) as Hperm.
  { rewrite missingHeaders_filter, mapRange_perm, checkHeaders_entries.
    by rewrite filter_missing. }
  split; [done|].
  unfold processURL, fetchHeaders. rewrite Hget, Hmode. cbn [world].
  destruct (decide (0 < length _)) as [Hsome|Hnone]; cbn [snd trace emit].
  - rewrite decide_False.
    + by rewrite <- (assoc_L (++)).
    + intros Hnil. rewrite Hnil in Hperm. apply Permutation_nil_r in Hperm.
      rewrite Hperm in Hsome. cbn in Hsome. lia.
  - rewrite decide_True; [done|].
    destruct (missingHeaders _) as [|name names] eqn:Hnames.
    + by apply Permutation_nil_l in Hperm.
    + cbn in Hnone. lia.
Qed.

Lemma missing_only_line_witness :
  ∃ names,
    names ≡ₚ filter (λ header, present Sim.twoHeaders header = false) requiredHeaders ∧
    trace (Sim.runtime false ∅)
      (processURL (Sim.runtime false ∅) (Sim.options true "" "" ["a.example"])
         (∅, Build_state (Sim.runtime false ∅) [Ok Sim.twoHeaders] []) "a.example").2
    = [] ++
      HttpGet false (requestURL "a.example")
      :: (if decide (filter (λ header, present Sim.twoHeaders header = false)
                       requiredHeaders = [])
          then []
          else [Stdout ("a.example" +:+ " is missing: " +:+ Strings.Join names ", " +:+ newline)]).
Proof.
  apply (missing_only_line (Sim.runtime false ∅) (Sim.options true "" "" ["a.example"])
           ∅ (Build_state (Sim.runtime false ∅) [Ok Sim.twoHeaders] [])
           "a.example" Sim.twoHeaders []).
  - reflexivity.
  - reflexivity.
Defined.

(** C2 as stated fails: the names of the line need not be in the order of
    the list of required headers. *)
Lemma missing_only_not_in_required_order :
  ¬ (∀ (R : Runtime) (o : Options) (agg : gmap string (gmap string bool))
       (s : state R) (url : string) (headers : Header) (w' : World R),
       missingOnly o = true →
       clientGet R (skipSSL o) (requestURL url) (world R s) = (Ok headers, w') →
       let missing := filter (λ header, present headers header = false) requiredHeaders in
       trace R (processURL R o (agg, s) url).2
       = trace R s ++
         HttpGet (skipSSL o) (requestURL url)
         :: (if decide (missing = []) then []
             else [Stdout (url +:+ " is missing: " +:+ Strings.Join missing ", " +:+ newline)])).
Proof.
  intros H.
  specialize (H (Sim.runtime false ∅) (Sim.options true "" "" ["a.example"])
                ∅ (Build_state (Sim.runtime false ∅) [Ok Sim.twoHeaders] [])
                "a.example" Sim.twoHeaders [] eq_refl eq_refl).
  vm_compute in H. discriminate H.
Qed.

(** ** Strings *)

Lemma string_app_assoc (a b c : string) : (a +:+ b) +:+ c = a +:+ (b +:+ c).
Proof. induction a as [|x a IH]; [done|]. by rewrite !app_cons, IH. Qed.

Lemma string_app_nil_r (s : string) : s +:+ "" = s.
Proof. induction s as [|x s IH]; [done|]. by rewrite app_cons, IH. Qed.

Lemma string_length_app (a b : string) :
  String.length (a +:+ b) = String.length a + String.length b.
Proof. induction a as [|x a IH]; [done|]. rewrite app_cons. cbn. by rewrite IH. Qed.

Lemma rev_app_spec (s1 s2 : string) : String.rev_app s1 s2 = String.rev s1 +:+ s2.
Proof.
  revert s2. induction s1 as [|x s1 IH]; intros s2; [done|].
  unfold String.rev. cbn [String.rev_app].
  by rewrite (IH (String x s2)), (IH (String x "")), string_app_assoc.
Qed.

Lemma rev_cons x (s : string) : String.rev (String x s) = String.rev s +:+ String x "".
Proof. unfold String.rev at 1. cbn [String.rev_app]. apply rev_app_spec. Qed.

Lemma rev_app_distr (a b : string) :
  String.rev (a +:+ b) = String.rev b +:+ String.rev a.
Proof.
  induction a as [|x a IH].
  - by rewrite string_app_nil_r.
  - by rewrite app_cons, !rev_cons, IH, string_app_assoc.
Qed.

Lemma rev_involutive (s : string) : String.rev (String.rev s) = s.
Proof.
  induction s as [|x s IH]; [done|]. by rewrite rev_cons, rev_app_distr, IH.
Qed.

Lemma rev_empty (s : string) : String.rev s = "" → s = "".
Proof. intros H. by rewrite <- (rev_involutive s), H. Qed.

Lemma cutPrefix_spec (p s rest : string) :
  Strings.cutPrefix p s = Some rest ↔ s = p +:+ rest.
Proof.
  revert s. induction p as [|a p IH]; intros s.
  - cbn. split; [by intros [= ->] | by intros ->].
  - destruct s as [|b s]; cbn.
    + split; [done|]. rewrite app_cons. done.
    + rewrite app_cons. destruct (decide (a = b)) as [->|Hne].
      * rewrite IH. split; [by intros -> | by intros [= ->]].
      * split; [done|]. by intros [= ? _].
Qed.

Lemma app_eq_cut (a b x y : string) :
  a +:+ x = b +:+ y →
  is_Some (Strings.cutPrefix a b) ∨ is_Some (Strings.cutPrefix b a).
Proof.
  revert b. induction a as [|c a IH]; intros b Heq; [left; by eexists|].
  destruct b as [|d b]; [right; by eexists|].
  rewrite !app_cons in Heq. injection Heq as -> Heq.
  cbn. rewrite !decide_True by done. by apply IH.
Qed.

Lemma app_eq_comparable (a b x y : string) :
  a +:+ x = b +:+ y → comparable a b = true.
Proof.
  intros Heq. unfold comparable. apply orb_true_iff.
  rewrite !bool_decide_eq_true. by eapply app_eq_cut.
Qed.

(** ** Trimming *)

Lemma cutSpace_Some (encodings : list string) s rest :
  Strings.cutSpace encodings s = Some rest → ∃ e, e ∈ encodings ∧ s = e +:+ rest.
Proof.
  unfold Strings.cutSpace.
  induction encodings as [|e es IH]; [done|]. cbn.
  destruct (Strings.cutPrefix e s) as [r|] eqn:Hcut.
  - cbn. intros [= ->]. exists e. split; [left | by apply cutPrefix_spec].
  - intros (e' & He' & Hs)%IH. exists e'. split; [by right | done].
Qed.

Lemma cutSpace_is_Some (encodings : list string) e s :
  e ∈ encodings → is_Some (Strings.cutSpace encodings (e +:+ s)).
Proof.
  unfold Strings.cutSpace.
  induction encodings as [|e' es IH]; [by intros ?%elem_of_nil|]. cbn.
  destruct (Strings.cutPrefix e' (e +:+ s)) as [r|] eqn:Hcut; [by eexists|].
  intros [Heq|Hin]%elem_of_cons; [subst e'|by apply IH].
  by rewrite (proj2 (cutPrefix_spec e (e +:+ s) s)) in Hcut.
Qed.

Section Trim.

Context (encodings : list string).
Hypothesis encodings_full : noEmpty encodings = true.

Lemma encoding_length e : e ∈ encodings → 0 < String.length e.
Proof.
  intros He. unfold noEmpty in encodings_full.
  rewrite forallb_forall in encodings_full.
  specialize (encodings_full e (proj1 (list_elem_of_In _ _) He)).
  destruct e; [done | cbn; lia].
Qed.

Lemma cutSpace_empty : Strings.cutSpace encodings "" = None.
Proof.
  destruct (Strings.cutSpace encodings "") as [rest|] eqn:Hcut; [|done].
  apply cutSpace_Some in Hcut as (e & He & Hs).
  apply encoding_length in He. destruct e; [cbn in He; lia | done].
Qed.

(** The loop removes a blank prefix and stops at a string that does not
    start with a space. *)
Lemma trimLoop_spec rounds s :
  String.length s ≤ rounds →
  ∃ blank, Blank encodings blank ∧
           s = blank +:+ Strings.trimLoop encodings rounds s ∧
           Strings.cutSpace encodings (Strings.trimLoop encodings rounds s) = None.
Proof.
  revert s. induction rounds as [|rounds IH]; intros s Hlen.
  - destruct s; [|cbn in Hlen; lia]. exists "". cbn.
    split; [constructor|]. split; [done | apply cutSpace_empty].
  - cbn [Strings.trimLoop].
    destruct (Strings.cutSpace encodings s) as [rest|] eqn:Hcut.
    + destruct (cutSpace_Some encodings s rest Hcut) as (e & He & ->).
      pose proof (encoding_length e He). rewrite string_length_app in Hlen.
      destruct (IH rest ltac:(lia)) as (blank & Hblank & Hrest & Hstop).
      exists (e +:+ blank). split; [by constructor|]. split; [|done].
      by rewrite string_app_assoc, <- Hrest.
    + exists "". split; [constructor|]. by split.
Qed.

Lemma Blank_app a b :
  Blank encodings a → Blank encodings b → Blank encodings (a +:+ b).
Proof using Type.
  intros Ha Hb. induction Ha as [|e a He Ha IH]; [done|].
  rewrite string_app_assoc. by constructor.
Qed.

Lemma Blank_no_space s :
  Blank encodings s → Strings.cutSpace encodings s = None → s = "".
Proof using Type.
  intros [|e s' He _] Hcut; [done|].
  destruct (cutSpace_is_Some encodings e s' He) as [rest Hrest]. congruence.
Qed.

Hypothesis encodings_prefix_free : prefixFree encodings = true.

Lemma cutSpace_app e s :
  e ∈ encodings → Strings.cutSpace encodings (e +:+ s) = Some s.
Proof.
  intros He. destruct (cutSpace_is_Some encodings e s He) as [rest Hrest].
  rewrite Hrest. f_equal.
  destruct (cutSpace_Some encodings _ _ Hrest) as (e' & He' & Heq).
  assert (e = e') as <-.
  { unfold prefixFree in encodings_prefix_free.
    rewrite forallb_forall in encodings_prefix_free.
    specialize (encodings_prefix_free e (proj1 (list_elem_of_In _ _) He)).
    rewrite forallb_forall in encodings_prefix_free.
    specialize (encodings_prefix_free e' (proj1 (list_elem_of_In _ _) He')).
    rewrite (app_eq_comparable e e' s rest Heq) in encodings_prefix_free.
    by apply bool_decide_eq_true in encodings_prefix_free. }
  symmetry. by apply (inj (String.app e)).
Qed.

Lemma trimLoop_Blank rounds s :
  Blank encodings s → String.length s ≤ rounds →
  Strings.trimLoop encodings rounds s = "".
Proof.
  intros Hblank. revert rounds.
  induction Hblank as [|e s He Hs IH]; intros rounds Hlen.
  - destruct rounds; [done|]. cbn. by rewrite cutSpace_empty.
  - pose proof (encoding_length e He). rewrite string_length_app in Hlen.
    destruct rounds as [|rounds]; [lia|].
    cbn [Strings.trimLoop]. rewrite cutSpace_app by done. apply IH. lia.
Qed.

End Trim.

Lemma Blank_rev (encodings : list string) (s : string) :
  Blank (String.rev <$> encodings) s → Blank encodings (String.rev s).
Proof.
  induction 1 as [|e s He Hs IH]; [constructor|].
  rewrite rev_app_distr. apply Blank_app; [done|].
  apply list_elem_of_fmap in He as (e0 & -> & He0).
  rewrite rev_involutive, <- (string_app_nil_r e0). constructor; [done | constructor].
Qed.

Lemma spaces_full : noEmpty Strings.spaces = true.
Proof. by vm_compute. Qed.

Lemma spaces_prefix_free : prefixFree Strings.spaces = true.
Proof. by vm_compute. Qed.

Lemma rev_spaces_full : noEmpty (String.rev <$> Strings.spaces) = true.
Proof. by vm_compute. Qed.

Lemma string_length_rev (s : string) : String.length (String.rev s) = String.length s.
Proof.
  induction s as [|x s IH]; [done|].
  rewrite rev_cons, string_length_app, IH. cbn. lia.
Qed.

(** A line trims to nothing exactly when it is made of space runes. *)
Lemma TrimSpace_empty_iff (line : string) :
  Strings.TrimSpace line = "" ↔ Blank Strings.spaces line.
Proof.
  unfold Strings.TrimSpace. split.
  - intros Htrim.
    destruct (trimLoop_spec Strings.spaces spaces_full (String.length line) line)
      as (blank & Hblank & Hline & Hstop); [done|].
    fold (Strings.TrimLeft line) in Hline, Hstop.
    set (t := Strings.TrimLeft line) in *.
    assert (Blank Strings.spaces t) as Ht.
    { unfold Strings.TrimRight in Htrim. apply rev_empty in Htrim.
      destruct (trimLoop_spec (String.rev <$> Strings.spaces) rev_spaces_full
                  (String.length t) (String.rev t))
        as (b & Hb & Hrev & _); [by rewrite string_length_rev|].
      rewrite Htrim, string_app_nil_r in Hrev.
      rewrite <- (rev_involutive t), Hrev. by apply Blank_rev. }
    rewrite (Blank_no_space Strings.spaces t Ht Hstop), string_app_nil_r in Hline.
    by rewrite Hline.
  - intros Hblank. unfold Strings.TrimLeft.
    by rewrite (trimLoop_Blank Strings.spaces spaces_full spaces_prefix_free).
Qed.

(** What [TrimSpace] returns: the line without a blank prefix and a blank
    suffix, with no space rune left at either end. *)
Lemma TrimSpace_spec (line : string) :
  ∃ before after,
    Blank Strings.spaces before ∧ Blank Strings.spaces after ∧
    line = before +:+ Strings.TrimSpace line +:+ after ∧
    Strings.cutSpace Strings.spaces (Strings.TrimSpace line) = None ∧
    Strings.cutSpace (String.rev <$> Strings.spaces)
      (String.rev (Strings.TrimSpace line)) = None.
Proof.
  unfold Strings.TrimSpace.
  destruct (trimLoop_spec Strings.spaces spaces_full (String.length line) line)
    as (before & Hbefore & Hline & Hstop); [done|].
  fold (Strings.TrimLeft line) in Hline, Hstop.
  set (t := Strings.TrimLeft line) in *.
  destruct (trimLoop_spec (String.rev <$> Strings.spaces) rev_spaces_full
              (String.length t) (String.rev t))
    as (b & Hb & Hrev & Hstop'); [by rewrite string_length_rev|].
  assert (t = Strings.TrimRight t +:+ String.rev b) as Ht.
  { unfold Strings.TrimRight.
    by rewrite <- rev_app_distr, <- Hrev, rev_involutive. }
  exists before, (String.rev b).
  split; [done|]. split; [by apply Blank_rev|]. split; [by rewrite <- Ht|]. split.
  - destruct (Strings.cutSpace Strings.spaces (Strings.TrimRight t))
      as [rest|] eqn:Hcut; [|done].
    apply cutSpace_Some in Hcut as (e & He & Hcut).
    rewrite Ht, Hcut, string_app_assoc in Hstop.
    destruct (cutSpace_is_Some Strings.spaces e (rest +:+ String.rev b) He).
    congruence.
  - unfold Strings.TrimRight. by rewrite rev_involutive.
Qed.

(** ** The URLs of a run *)

Lemma Split_nonempty s sep : Strings.Split s sep ≠ [].
Proof.
  destruct s as [|c s]; [done|]. cbn.
  destruct (decide (c = sep)); [done|]. by destruct (Strings.Split s sep).
Qed.

(** The pieces, joined with the separator, are the string. *)
Lemma Split_Join s sep : Strings.Join (Strings.Split s sep) (String sep "") = s.
Proof.
  induction s as [|c s IH]; [done|]. cbn [Strings.Split].
  pose proof (Split_nonempty s sep) as Hne.
  destruct (decide (c = sep)) as [->|Hc].
  - destruct (Strings.Split s sep) as [|piece pieces]; [done|].
    cbn [Strings.Join]. cbn [Strings.Join] in IH. by rewrite IH.
  - destruct (Strings.Split s sep) as [|piece [|piece' pieces]]; [done|..].
    + cbn in *. by rewrite IH.
    + cbn [Strings.Join] in *. by rewrite app_cons, IH.
Qed.

(** No piece holds the separator. *)
Lemma Split_no_sep s sep :
  Forall (λ piece, Strings.all (λ c, negb (bool_decide (c = sep))) piece = true)
         (Strings.Split s sep).
Proof.
  induction s as [|c s IH]; [by repeat constructor|]. cbn [Strings.Split].
  destruct (decide (c = sep)) as [->|Hc]; [by constructor|].
  pose proof (Split_nonempty s sep) as Hne.
  destruct (Strings.Split s sep) as [|piece pieces]; [done|].
  apply Forall_cons in IH as [Hpiece Hpieces]. constructor; [|done].
  cbn. by rewrite Hpiece, bool_decide_eq_false_2.
Qed.

Lemma readURLs_fold (lines urls : list string) :
  foldl (λ urls line,
           let trimmed := Strings.TrimSpace line in
           if decide (trimmed ≠ "") then urls ++ [trimmed] else urls) urls lines
  = urls ++ filter (λ url, url ≠ "") (Strings.TrimSpace <$> lines).
Proof.
  revert urls. induction lines as [|line lines IH]; intros urls.
  - by rewrite app_nil_r.
  - cbn [foldl]. rewrite IH, fmap_cons, filter_cons.
    destruct (decide (Strings.TrimSpace line ≠ "")); [|done].
    by rewrite <- (assoc_L (++)).
Qed.

(** C7.  The URLs of a run are the command-line URLs in argument order,
    followed, when an input file is given, by the trimmed lines of the
    file that are not empty, in file order; a line trims to the empty
    string exactly when it is made of space runes only, and trimming
    removes a blank prefix and a blank suffix and nothing else. *)
Theorem collectURLs_order (R : Runtime) (o : Options) (w : World R) :
  (inputFile o = "" → collectURLs R o w = Ok (args o)) ∧
  (∀ data, inputFile o ≠ "" → ReadFile R (inputFile o) w = Ok data →
     collectURLs R o w
     = Ok (args o ++
           filter (λ url, url ≠ "")
                  (Strings.TrimSpace <$> Strings.Split data (ascii_of_nat 10)))) ∧
  (∀ line, Strings.TrimSpace line = "" ↔ Blank Strings.spaces line) ∧
  (∀ line, ∃ before after,
     Blank Strings.spaces before ∧ Blank Strings.spaces after ∧
     line = before +:+ Strings.TrimSpace line +:+ after).
Proof.
  split; [|split; [|split]].
  - intros Hnone. unfold collectURLs. by rewrite decide_False by (by intros ?).
  - intros data Hfile Hread. unfold collectURLs, readURLsFromFile.
    rewrite decide_True by done. by rewrite Hread, readURLs_fold.
  - apply TrimSpace_empty_iff.
  - intros line. destruct (TrimSpace_spec line) as (b1 & b2 & ? & ? & ? & _).
    by exists b1, b2.
Qed.

Lemma collectURLs_order_witness :
  collectURLs
    (Sim.runtime false
       {["urls.txt" := " x.org " +:+ newline +:+ newline +:+ "https://y.io" +:+ newline]})
    (Sim.options false "" "urls.txt" ["a.example"]) []
  = Ok (["a.example"] ++ ["x.org"; "https://y.io"]).
Proof.
  apply (proj1 (proj2 (collectURLs_order
    (Sim.runtime false
       {["urls.txt" := " x.org " +:+ newline +:+ newline +:+ "https://y.io" +:+ newline]})
    (Sim.options false "" "urls.txt" ["a.example"]) []))
    (" x.org " +:+ newline +:+ newline +:+ "https://y.io" +:+ newline)).
  - discriminate.
  - reflexivity.
Defined.

(** * Further properties of the program *)

(** ** fetchHeaders *)

(** X1.  The URL the request is made to always starts with [http://] or
    [https://], and normalising it again changes nothing. *)
Theorem requestURL_idempotent (url : string) :
  (Strings.HasPrefix (requestURL url) "http://"
   || Strings.HasPrefix (requestURL url) "https://") = true ∧
  requestURL (requestURL url) = requestURL url.
Proof.
  assert ((Strings.HasPrefix (requestURL url) "http://"
           || Strings.HasPrefix (requestURL url) "https://") = true) as Hprefix.
  { unfold requestURL.
    destruct (Strings.HasPrefix url "http://") eqn:Hhttp; cbn [negb andb].
    { by rewrite Hhttp. }
    destruct (Strings.HasPrefix url "https://") eqn:Hhttps; cbn [negb andb].
    { by rewrite Hhttps, orb_true_r. }
    apply orb_true_iff. left. apply HasPrefix_spec. by exists url. }
  split; [done|].
  unfold requestURL at 1.
  apply orb_true_iff in Hprefix as [-> | ->]; [done|].
  by rewrite andb_false_r.
Qed.

(** ** displayResults *)

(** X2.  [displayResults] prints the heading and then one line for each
    entry of the map it is given, in the order of the runtime, each with
    the coloured word of its flag; it prints the heading alone for an
    empty map and leaves the world as it is. *)
Theorem displayResults_lines (R : Runtime) (url : string)
    (results : gmap string bool) (s : state R) :
  ∃ entries,
    entries ≡ₚ map_to_list results ∧
    length entries = size results ∧
    displayResults R url results s
    = {| world := world R s;
         trace := trace R s ++ heading url :: (displayLine R <$> entries) |}.
Proof.
  exists (mapRange R (world R s) results).
  split; [apply mapRange_perm|]. split.
  - by rewrite mapRange_perm, length_map_to_list.
  - pose proof (displayResults_world R url results s) as Hworld.
    pose proof (displayResults_trace R url results s) as Htrace.
    destruct (displayResults R url results s) as [w' t']. cbn in *. by subst.
Qed.

(** ** One round of the loop *)

Lemma missingHeaders_perm (R : Runtime) (w : World R) headers :
  missingHeaders (mapRange R w (checkHeaders headers)) ≡ₚ missingOf headers.
Proof.
  rewrite missingHeaders_filter, mapRange_perm, checkHeaders_entries.
  by rewrite filter_missing.
Qed.

Lemma processURL_result (R : Runtime) (o : Options) agg (s : state R) url :
  (processURL R o (agg, s) url).1
  = match (clientGet R (skipSSL o) (requestURL url) (world R s)).1 with
    | Ok headers => <[url := checkHeaders headers]> agg
    | Err _ => agg
    end ∧
  world R (processURL R o (agg, s) url).2
  = (clientGet R (skipSSL o) (requestURL url) (world R s)).2.
Proof.
  unfold processURL, fetchHeaders.
  destruct (clientGet R (skipSSL o) (requestURL url) (world R s))
    as [[headers|err] w']; cbn [fst snd]; [|done].
  destruct (missingOnly o); [by destruct (decide _)|].
  cbn [fst snd]. by rewrite displayResults_world.
Qed.

Lemma processURL_step (R : Runtime) (o : Options) agg (s : state R) url :
  ∃ events,
    step R o (url, (clientGet R (skipSSL o) (requestURL url) (world R s)).1) events ∧
    trace R (processURL R o (agg, s) url).2 = trace R s ++ events.
Proof.
  unfold processURL, fetchHeaders.
  destruct (clientGet R (skipSSL o) (requestURL url) (world R s))
    as [[headers|err] w']; cbn [fst snd].
  - destruct (missingOnly o) eqn:Hmode.
    + cbn [world].
      pose proof (missingHeaders_perm R w' headers) as Hperm.
      eexists. split; [by apply (step_missing R o url headers _ Hmode Hperm)|].
      destruct (missingHeaders _) as [|name names]; cbn [length].
      * rewrite decide_False by lia. by rewrite decide_True.
      * rewrite decide_True by lia. rewrite decide_False by done.
        unfold emit. cbn [snd trace]. by rewrite <- (assoc_L (++)).
    + eexists. split.
      * apply (step_full R o url headers (mapRange R w' (checkHeaders headers)) Hmode).
        unfold resultEntries. by rewrite mapRange_perm, checkHeaders_entries.
      * cbn [snd]. rewrite displayResults_trace. cbn [trace world].
        by rewrite <- (assoc_L (++)).
  - eexists. split; [apply step_failed|].
    unfold emit. cbn [trace]. by rewrite <- (assoc_L (++)).
Qed.

(** X3.  In full mode, after a successful fetch, the loop prints the
    heading and exactly six lines, one for each required header in the
    order of the runtime, each saying whether that header is in the
    response, and stores the result under the URL as given. *)
Theorem full_mode_display (R : Runtime) (o : Options)
    (agg : gmap string (gmap string bool)) (s : state R)
    (url : string) (headers : Header) (w' : World R) :
  missingOnly o = false →
  clientGet R (skipSSL o) (requestURL url) (world R s) = (Ok headers, w') →
  ∃ entries,
    entries ≡ₚ resultEntries headers ∧ length entries = 6 ∧
    processURL R o (agg, s) url
    = (<[url := checkHeaders headers]> agg,
       {| world := w';
          trace := trace R s ++
            HttpGet (skipSSL o) (requestURL url)
            :: heading url :: (displayLine R <$> entries) |}).
Proof.
  intros Hmode Hget.
  exists (mapRange R w' (checkHeaders headers)).
  assert (mapRange R w' (checkHeaders headers) ≡ₚ resultEntries headers) as Hperm.
  { unfold resultEntries. by rewrite mapRange_perm, checkHeaders_entries. }
  split; [done|]. split.
  { rewrite Hperm. unfold resultEntries. by rewrite length_fmap. }
  unfold processURL, fetchHeaders. rewrite Hget, Hmode. f_equal.
  set (s1 := {| world := w'; trace := trace R s ++ [HttpGet (skipSSL o) (requestURL url)] |}).
  pose proof (displayResults_world R url (checkHeaders headers) s1) as Hworld.
  pose proof (displayResults_trace R url (checkHeaders headers) s1) as Htrace.
  destruct (displayResults R url (checkHeaders headers) s1) as [w2 t2].
  cbn in *. subst. by rewrite <- (assoc_L (++)).
Qed.

Lemma full_mode_display_witness :
  ∃ entries,
    entries ≡ₚ resultEntries Sim.twoHeaders ∧ length entries = 6 ∧
    processURL (Sim.runtime true ∅) (Sim.options false "" "" ["a.example"])
      (∅, Build_state (Sim.runtime true ∅) [Ok Sim.twoHeaders] []) "a.example"
    = (<["a.example" := checkHeaders Sim.twoHeaders]> ∅,
       Build_state (Sim.runtime true ∅) []
         ([] ++ HttpGet false (requestURL "a.example")
             :: heading "a.example" :: (displayLine (Sim.runtime true ∅) <$> entries))).
Proof.
  apply (full_mode_display (Sim.runtime true ∅) (Sim.options false "" "" ["a.example"])
           ∅ (Build_state (Sim.runtime true ∅) [Ok Sim.twoHeaders] [])
           "a.example" Sim.twoHeaders []).
  - reflexivity.
  - reflexivity.
Defined.

(** ** The whole loop *)

Lemma loop_steps (R : Runtime) (o : Options) urls agg (s : state R) :
  ∃ steps,
    Forall2 (step R o) (outcomes R (skipSSL o) urls (world R s)) steps ∧
    trace R (foldl (processURL R o) (agg, s) urls).2 = trace R s ++ concat steps.
Proof.
  revert agg s. induction urls as [|url urls IH]; intros agg s.
  { exists []. split; [constructor | by rewrite app_nil_r]. }
  cbn [foldl outcomes].
  destruct (processURL_step R o agg s url) as (events & Hstep & Htrace).
  destruct (processURL_result R o agg s url) as [_ Hworld].
  destruct (clientGet R (skipSSL o) (requestURL url) (world R s)) as [resp w'].
  destruct (processURL R o (agg, s) url) as [agg' s']. cbn [fst snd] in *.
  destruct (IH agg' s') as (steps & Hsteps & Hrest).
  exists (events :: steps). rewrite Hworld in Hsteps. split; [by constructor|].
  by rewrite Hrest, Htrace, <- (assoc_L (++)).
Qed.

(** X4.  The trace of the loop is made of one part for each URL, in the
    order of the list, fixed by the answer of the network to the request
    for that URL: the request and a log line when the fetch fails; the
    request and at most one line with the missing names in missing-only
    mode; the request, the heading and six lines in full mode. *)
Theorem processURLs_steps (R : Runtime) (o : Options) (urls : list string)
    (s : state R) :
  ∃ steps,
    Forall2 (step R o) (outcomes R (skipSSL o) urls (world R s)) steps ∧
    length steps = length urls ∧
    trace R (processURLs R o urls s).2 = trace R s ++ concat steps.
Proof.
  destruct (loop_steps R o urls ∅ s) as (steps & Hsteps & Htrace).
  exists steps. split; [done|]. split; [|done].
  rewrite <- (Forall2_length _ _ _ Hsteps).
  clear. generalize (world R s). induction urls as [|url urls IH]; intros w; [done|].
  cbn. destruct (clientGet R (skipSSL o) (requestURL url) w). cbn. by rewrite IH.
Qed.

(** ** What a run requests, logs and prints *)

Lemma requests_app a b : requests (a ++ b) = requests a ++ requests b.
Proof. apply omap_app. Qed.

Lemma logged_app a b : logged (a ++ b) = logged a ++ logged b.
Proof. apply omap_app. Qed.

Lemma printed_app a b : printed (a ++ b) = printed a ++ printed b.
Proof. apply omap_app. Qed.

Lemma displayLine_quiet (R : Runtime) (entries : list (string * bool)) :
  requests (displayLine R <$> entries) = [] ∧ logged (displayLine R <$> entries) = [].
Proof. by induction entries. Qed.

Lemma written_quiet path (records : list (list string)) :
  requests (CsvRecord path <$> records) = [] ∧
  logged (CsvRecord path <$> records) = [] ∧
  printed (CsvRecord path <$> records) = [].
Proof. by induction records. Qed.

Lemma step_requests (R : Runtime) (o : Options) entry events :
  step R o entry events → requests events = [(skipSSL o, requestURL entry.1)].
Proof.
  intros [url err|url headers names _ _|url headers entries _ _].
  - done.
  - by destruct (decide (names = [])).
  - change (requests (HttpGet ?k ?u :: heading ?h :: ?l)) with ((k, u) :: requests l).
    by rewrite (proj1 (displayLine_quiet R entries)).
Qed.

Lemma step_logged (R : Runtime) (o : Options) entry events :
  step R o entry events →
  logged events = match failureLine entry with Some line => [line] | None => [] end.
Proof.
  intros [url err|url headers names _ _|url headers entries _ _].
  - done.
  - by destruct (decide (names = [])).
  - change (logged (HttpGet ?k ?u :: heading ?h :: ?l)) with (logged l).
    by rewrite (proj2 (displayLine_quiet R entries)).
Qed.

Lemma step_printed (R : Runtime) (o : Options) entry events :
  missingOnly o = true → step R o entry events →
  length (printed events) = if incomplete entry then 1 else 0.
Proof.
  intros Hmode [url err|url headers names _ Hperm|url headers entries Hfull _].
  - done.
  - unfold incomplete. cbn [snd]. destruct (decide (names = [])) as [->|Hnames].
    + symmetry in Hperm. apply Permutation_nil_r in Hperm.
      by rewrite Hperm.
    + rewrite bool_decide_eq_false_2; [done|].
      intros Hnil. rewrite Hnil in Hperm. by apply Permutation_nil_r in Hperm.
  - congruence.
Qed.

Lemma steps_requests (R : Runtime) (o : Options) log steps :
  Forall2 (step R o) log steps →
  requests (concat steps) = (λ entry, (skipSSL o, requestURL entry.1)) <$> log.
Proof.
  induction 1 as [|entry events log steps Hstep _ IH]; [done|].
  cbn [concat]. by rewrite requests_app, (step_requests R o entry events Hstep), IH.
Qed.

Lemma steps_logged (R : Runtime) (o : Options) log steps :
  Forall2 (step R o) log steps → logged (concat steps) = omap failureLine log.
Proof.
  induction 1 as [|entry events log steps Hstep _ IH]; [done|].
  cbn [concat omap list_omap]. rewrite logged_app, (step_logged R o entry events Hstep), IH.
  by destruct (failureLine entry).
Qed.

Lemma steps_printed (R : Runtime) (o : Options) log steps :
  missingOnly o = true → Forall2 (step R o) log steps →
  length (printed (concat steps)) = length (filter (λ entry, incomplete entry = true) log).
Proof.
  intros Hmode. induction 1 as [|entry events log steps Hstep _ IH]; [done|].
  cbn [concat]. rewrite printed_app, length_app, IH, filter_cons.
  rewrite (step_printed R o entry events Hmode Hstep).
  by destruct (incomplete entry).
Qed.

Lemma outcomes_urls (R : Runtime) client urls (w : World R) :
  (outcomes R client urls w).*1 = urls.
Proof.
  revert w. induction urls as [|url urls IH]; intros w; [done|].
  cbn. destruct (clientGet R client (requestURL url) w). cbn. by rewrite IH.
Qed.

(** X5.  A run makes exactly one request for each URL of its list, in the
    order of the list, to the normalised URL and with the certificate
    setting of the command line, whether the fetches fail or not and in
    both display modes; it makes none when the input file cannot be read
    or the list is empty, and the CSV export makes none. *)
Theorem main_requests (R : Runtime) (o : Options) (w : World R) :
  requests (trace R (main R o w).2)
  = match collectURLs R o w with
    | Ok urls => (λ url, (skipSSL o, requestURL url)) <$> urls
    | Err _ => []
    end.
Proof.
  unfold main. destruct (collectURLs R o w) as [urls|err]; [|done].
  destruct (decide (length urls = 0)) as [Hempty|Hurls].
  { by destruct urls. }
  destruct (loop_steps R o urls ∅ {| world := w; trace := [] |})
    as (steps & Hsteps & Htrace).
  fold (processURLs R o urls {| world := w; trace := [] |}) in Htrace.
  assert (requests (concat steps) = (λ url, (skipSSL o, requestURL url)) <$> urls)
    as Hrequests.
  { rewrite (steps_requests R o _ _ Hsteps).
    rewrite <- (outcomes_urls R (skipSSL o) urls w) at 2.
    by rewrite <- list_fmap_compose. }
  destruct (processURLs R o urls {| world := w; trace := [] |}) as [agg s1].
  cbn [snd trace app] in Htrace.
  destruct (decide (outputFile o ≠ "")) as [Hout|Hnone];
    [|cbn [snd]; by rewrite Htrace].
  destruct (writeResultsToCSV_trace R (outputFile o) agg s1)
    as (entries & written & rest & _ & _ & Hcsv & _).
  destruct (writeResultsToCSV R (outputFile o) agg s1) as [[err|] s2];
    cbn [snd] in Hcsv; unfold emit; cbn [snd trace];
    rewrite Hcsv, Htrace, !requests_app, (proj1 (written_quiet _ written));
    cbn; by rewrite !app_nil_r.
Qed.

(** X6.  The loop logs one line for each fetch that fails, in the order
    of the URLs, naming the URL as it was given and the error of the
    client, and logs nothing else. *)
Theorem processURLs_logged (R : Runtime) (o : Options) (urls : list string)
    (s : state R) :
  logged (trace R (processURLs R o urls s).2)
  = logged (trace R s) ++ omap failureLine (outcomes R (skipSSL o) urls (world R s)).
Proof.
  destruct (loop_steps R o urls ∅ s) as (steps & Hsteps & Htrace).
  unfold processURLs. by rewrite Htrace, logged_app, (steps_logged R o _ _ Hsteps).
Qed.

(** X7.  In missing-only mode the loop prints as many lines as there are
    fetches that succeed with a required header missing: nothing for a
    fetch that fails, nothing for a response with all six headers. *)
Theorem missing_only_printed (R : Runtime) (o : Options) (urls : list string)
    (s : state R) :
  missingOnly o = true →
  length (printed (trace R (processURLs R o urls s).2))
  = length (printed (trace R s))
    + length (filter (λ entry, incomplete entry = true)
                     (outcomes R (skipSSL o) urls (world R s))).
Proof.
  intros Hmode. destruct (loop_steps R o urls ∅ s) as (steps & Hsteps & Htrace).
  unfold processURLs.
  by rewrite Htrace, printed_app, length_app, (steps_printed R o _ _ Hmode Hsteps).
Qed.

Lemma missing_only_printed_witness :
  length (printed (trace (Sim.runtime false ∅)
    (processURLs (Sim.runtime false ∅) (Sim.options true "" "" [])
       ["a.example"; "b.example"; "c.example"]
       (Build_state (Sim.runtime false ∅)
          [Ok Sim.twoHeaders; Err "timeout"; Ok Sim.allHeaders] [])).2))
  = 0 + 1.
Proof.
  apply (missing_only_printed (Sim.runtime false ∅) (Sim.options true "" "" [])
           ["a.example"; "b.example"; "c.example"]
           (Build_state (Sim.runtime false ∅)
              [Ok Sim.twoHeaders; Err "timeout"; Ok Sim.allHeaders] [])).
  reflexivity.
Defined.

(** ** main *)

(** X8.  When an input file is named and cannot be read, the run logs the
    error and ends with status 1 at once: no request is made, also for
    the URLs given on the command line, and the world is as it was. *)
Theorem main_unreadable_input (R : Runtime) (o : Options) (w : World R) (err : string) :
  inputFile o ≠ "" →
  ReadFile R (inputFile o) w = Err err →
  main R o w
  = (1%Z, {| world := w;
             trace := [Logged ("Error reading URLs from file: " +:+ err +:+ newline)] |}).
Proof.
  intros Hfile Hread. unfold main, collectURLs, readURLsFromFile.
  by rewrite decide_True, Hread by done.
Qed.

Lemma main_unreadable_input_witness :
  main (Sim.runtime false ∅) (Sim.options false "" "urls.txt" ["a.example"])
       [Ok Sim.allHeaders]
  = (1%Z, Build_state (Sim.runtime false ∅) [Ok Sim.allHeaders]
      [Logged ("Error reading URLs from file: " +:+ "no such file or directory" +:+ newline)]).
Proof.
  apply (main_unreadable_input (Sim.runtime false ∅)
           (Sim.options false "" "urls.txt" ["a.example"]) [Ok Sim.allHeaders]
           "no such file or directory").
  - discriminate.
  - reflexivity.
Defined.

(** X9.  A run with at least one URL and no output file ends with status
    0 whatever the fetches did, also when every one of them failed; it
    writes no CSV record, and its log is the lines of the failed
    fetches. *)
Theorem main_without_export (R : Runtime) (o : Options) (w : World R)
    (urls : list string) :
  collectURLs R o w = Ok urls → urls ≠ [] → outputFile o = "" →
  (main R o w).1 = 0%Z ∧
  csvRecords (trace R (main R o w).2) = [] ∧
  logged (trace R (main R o w).2) = omap failureLine (outcomes R (skipSSL o) urls w).
Proof.
  intros Hurls Hsome Hout.
  assert (logged (trace R (processURLs R o urls {| world := w; trace := [] |}).2)
          = omap failureLine (outcomes R (skipSSL o) urls w)) as Hlog.
  { destruct (loop_steps R o urls ∅ {| world := w; trace := [] |})
      as (steps & Hsteps & Htrace).
    unfold processURLs. rewrite Htrace. cbn [trace world app] in *.
    apply (steps_logged R o _ _ Hsteps). }
  pose proof (loop_csvRecords R o urls ∅ {| world := w; trace := [] |}) as Hcsv.
  fold (processURLs R o urls {| world := w; trace := [] |}) in Hcsv.
  unfold main. rewrite Hurls.
  rewrite decide_False by (by destruct urls).
  destruct (processURLs R o urls {| world := w; trace := [] |}) as [agg s1].
  rewrite decide_False by (intros Hne; by apply Hne).
  by cbn [fst snd] in *.
Qed.

Lemma main_without_export_witness :
  (main (Sim.runtime false ∅) (Sim.options true "" "" ["a.example"]) []).1 = 0%Z ∧
  csvRecords (trace (Sim.runtime false ∅)
    (main (Sim.runtime false ∅) (Sim.options true "" "" ["a.example"]) []).2) = [] ∧
  logged (trace (Sim.runtime false ∅)
    (main (Sim.runtime false ∅) (Sim.options true "" "" ["a.example"]) []).2)
  = omap failureLine (outcomes (Sim.runtime false ∅) false ["a.example"] []).
Proof.
  apply (main_without_export (Sim.runtime false ∅)
           (Sim.options true "" "" ["a.example"]) [] ["a.example"]).
  - reflexivity.
  - discriminate.
  - reflexivity.
Defined.

(** ** The aggregate *)

Lemma aggregate_entry (R : Runtime) (o : Options) urls (s : state R) url results :
  (processURLs R o urls s).1 !! url = Some results →
  ∃ headers, (url, Ok headers) ∈ outcomes R (skipSSL o) urls (world R s) ∧
             results = checkHeaders headers.
Proof.
  rewrite processURLs_aggregate. intros Hin%elem_of_list_to_map_2.
  apply elem_of_reverse, list_elem_of_omap in Hin as ([u [headers|err]] & Hin & Hsome);
    [|done].
  injection Hsome as -> <-. by exists headers.
Qed.

(** X10.  After the loop the aggregate has an entry exactly for the URL
    strings that were fetched with success; every entry is the result of
    a successful fetch of its URL and has the six required names as its
    keys. *)
Theorem aggregate_entries (R : Runtime) (o : Options) (urls : list string)
    (s : state R) :
  dom (processURLs R o urls s).1
    = list_to_set (fetched (outcomes R (skipSSL o) urls (world R s))).*1 ∧
  map_Forall
    (λ url results,
       dom results = list_to_set requiredHeaders ∧
       ∃ headers, (url, Ok headers) ∈ outcomes R (skipSSL o) urls (world R s) ∧
                  results = checkHeaders headers)
    (processURLs R o urls s).1.
Proof.
  split; [apply aggregate_dom|].
  intros url results Hlookup.
  destruct (aggregate_entry R o urls s url results Hlookup) as (headers & Hin & ->).
  split; [apply checkHeaders_dom | by exists headers].
Qed.

Lemma loop_world (R : Runtime) (o1 o2 : Options) urls agg1 agg2 (s1 s2 : state R) :
  skipSSL o1 = skipSSL o2 → world R s1 = world R s2 →
  world R (foldl (processURL R o1) (agg1, s1) urls).2
  = world R (foldl (processURL R o2) (agg2, s2) urls).2.
Proof.
  intros Hskip. revert agg1 agg2 s1 s2.
  induction urls as [|url urls IH]; intros agg1 agg2 s1 s2 Hworld; [done|].
  cbn [foldl].
  destruct (processURL_result R o1 agg1 s1 url) as [_ H1].
  destruct (processURL_result R o2 agg2 s2 url) as [_ H2].
  destruct (processURL R o1 (agg1, s1) url) as [agg1' s1'].
  destruct (processURL R o2 (agg2, s2) url) as [agg2' s2'].
  apply IH. cbn [snd] in *. by rewrite H1, H2, Hskip, Hworld.
Qed.

(** X11.  The display mode and the names of the files do not reach the
    network or the aggregate: two runs of the loop with the same
    certificate setting, from the same world, end in the same world with
    the same aggregate, whatever they printed. *)
Theorem aggregate_mode_independent (R : Runtime) (o1 o2 : Options)
    (urls : list string) (s1 s2 : state R) :
  skipSSL o1 = skipSSL o2 → world R s1 = world R s2 →
  (processURLs R o1 urls s1).1 = (processURLs R o2 urls s2).1 ∧
  world R (processURLs R o1 urls s1).2 = world R (processURLs R o2 urls s2).2.
Proof.
  intros Hskip Hworld. split.
  - by rewrite !processURLs_aggregate, Hskip, Hworld.
  - by apply loop_world.
Qed.

Lemma aggregate_mode_independent_witness :
  (processURLs (Sim.runtime false ∅) (Sim.options true "" "" []) ["a.example"; "b"]
     (Build_state (Sim.runtime false ∅) [Ok Sim.twoHeaders] [])).1
  = (processURLs (Sim.runtime false ∅) (Sim.options false "out.csv" "" []) ["a.example"; "b"]
       (Build_state (Sim.runtime false ∅) [Ok Sim.twoHeaders] [Stdout "before"])).1 ∧
  world (Sim.runtime false ∅)
    (processURLs (Sim.runtime false ∅) (Sim.options true "" "" []) ["a.example"; "b"]
       (Build_state (Sim.runtime false ∅) [Ok Sim.twoHeaders] [])).2
  = world (Sim.runtime false ∅)
      (processURLs (Sim.runtime false ∅) (Sim.options false "out.csv" "" []) ["a.example"; "b"]
         (Build_state (Sim.runtime false ∅) [Ok Sim.twoHeaders] [Stdout "before"])).2.
Proof.
  apply (aggregate_mode_independent (Sim.runtime false ∅)
           (Sim.options true "" "" []) (Sim.options false "out.csv" "" [])
           ["a.example"; "b"]
           (Build_state (Sim.runtime false ∅) [Ok Sim.twoHeaders] [])
           (Build_state (Sim.runtime false ∅) [Ok Sim.twoHeaders] [Stdout "before"])).
  - reflexivity.
  - reflexivity.
Defined.

(** ** checkHeaders *)

(** X12.  Headers outside the list of six do not matter: adding or
    removing any other key of the header set leaves the result of
    [checkHeaders] as it is, and two header sets have the same result
    exactly when they agree on which of the six names they hold. *)
Theorem checkHeaders_other_headers (headers : Header) (key : string)
    (values : list string) :
  key ∉ requiredHeaders →
  checkHeaders (<[key := values]> headers) = checkHeaders headers ∧
  checkHeaders (delete key headers) = checkHeaders headers ∧
  (∀ other : Header,
     checkHeaders other = checkHeaders headers ↔
     Forall (λ name, present other name = present headers name) requiredHeaders).
Proof.
  intros Hkey.
  assert (∀ other : Header,
            checkHeaders other = checkHeaders headers ↔
            Forall (λ name, present other name = present headers name) requiredHeaders)
    as Hiff.
  { intros other. rewrite Forall_forall. split.
    - intros Heq name Hname.
      assert (checkHeaders other !! name = checkHeaders headers !! name) as Hlookup
        by (by rewrite Heq).
      rewrite !checkHeaders_lookup, !decide_True in Hlookup by done.
      by injection Hlookup.
    - intros Hsame. apply map_eq. intros name. rewrite !checkHeaders_lookup.
      destruct (decide (name ∈ requiredHeaders)); [|done]. by rewrite Hsame. }
  split; [|split; [|done]].
  - apply Hiff, Forall_forall. intros name Hname. unfold present.
    rewrite lookup_insert_ne; [done|]. by intros ->.
  - apply Hiff, Forall_forall. intros name Hname. unfold present.
    rewrite lookup_delete_ne; [done|]. by intros ->.
Qed.

Lemma checkHeaders_other_headers_witness :
  checkHeaders (<["Server" := ["nginx"]]> Sim.twoHeaders) = checkHeaders Sim.twoHeaders.
Proof.
  assert ("Server" ∉ requiredHeaders) as Hkey.
  { unfold requiredHeaders. rewrite !not_elem_of_cons.
    repeat split; try done. apply not_elem_of_nil. }
  exact (proj1 (checkHeaders_other_headers Sim.twoHeaders "Server" ["nginx"] Hkey)).
Defined.

(** ** The CSV file *)

Lemma cell_checkHeaders (headers : Header) :
  cell (checkHeaders headers) <$> requiredHeaders
  = (λ header, if present headers header then "Present" else "Missing")
      <$> requiredHeaders.
Proof.
  apply Forall_fmap_ext, Forall_forall. intros header Hin.
  unfold cell. by rewrite checkHeaders_lookup, decide_True.
Qed.

(** X13.  In a run that exports the CSV file, every data row is the URL
    of a successful fetch followed by Present or Missing for each of the
    six headers, in the order of the header row, as they were in a
    response fetched for that URL; and every URL fetched with success
    has a row. *)
Theorem csv_rows_match_presence (R : Runtime) (o : Options) (w : World R) :
  outputFile o ≠ "" → (main R o w).1 = 0%Z →
  ∃ urls,
    collectURLs R o w = Ok urls ∧
    head (csvRecords (trace R (main R o w).2)) = Some ("URL" :: requiredHeaders) ∧
    Forall (λ record,
              ∃ url headers,
                (url, Ok headers) ∈ outcomes R (skipSSL o) urls w ∧
                record = presenceRow url headers)
           (tail (csvRecords (trace R (main R o w).2))) ∧
    Forall (λ entry,
              ∀ headers, entry.2 = Ok headers →
                entry.1 ∈ rowURL <$> tail (csvRecords (trace R (main R o w).2)))
           (outcomes R (skipSSL o) urls w).
Proof.
  intros Hout Hexit.
  destruct (main_csv R o w)
    as [[_ [?|?]]|(urls & entries & rest & Hurls & _ & _ & Hperm & Hsplit & Hall)];
    [done | congruence |].
  rewrite (Hall Hexit), app_nil_r in Hsplit. rewrite <- Hsplit.
  exists urls. split; [done|]. split; [done|]. cbn [tail]. split.
  - apply Forall_fmap, Forall_forall. intros [url results] Hin.
    rewrite Hperm in Hin. apply elem_of_map_to_list in Hin.
    destruct (aggregate_entry R o urls _ url results Hin) as (headers & Hlog & ->).
    exists url, headers. split; [done|].
    unfold presenceRow, rowOf. cbn [fst snd].
    by rewrite csvRow_cells, cell_checkHeaders.
  - apply Forall_forall. intros [url resp] Hin headers Hresp.
    cbn [fst snd] in *. subst resp.
    rewrite rowURL_rows, Hperm.
    pose proof (aggregate_dom R o urls {| world := w; trace := [] |}) as Hdom.
    cbn [world] in Hdom.
    assert (url ∈ dom (processURLs R o urls {| world := w; trace := [] |}).1) as Hurl.
    { rewrite Hdom, elem_of_list_to_set. apply list_elem_of_fmap.
      exists (url, checkHeaders headers). split; [done|].
      apply list_elem_of_omap. by exists (url, Ok headers). }
    apply elem_of_dom in Hurl as [results Hresults].
    apply list_elem_of_fmap. exists (url, results). split; [done|].
    by apply elem_of_map_to_list.
Qed.

Lemma csv_rows_match_presence_witness :
  ∃ urls,
    collectURLs (Sim.runtime false ∅)
      (Sim.options true "out.csv" "" ["a.example"; "b.example"])
      [Ok Sim.twoHeaders; Err "timeout"] = Ok urls ∧
    head (csvRecords (trace (Sim.runtime false ∅)
      (main (Sim.runtime false ∅)
         (Sim.options true "out.csv" "" ["a.example"; "b.example"])
         [Ok Sim.twoHeaders; Err "timeout"]).2)) = Some ("URL" :: requiredHeaders) ∧
    Forall (λ record,
              ∃ url headers,
                (url, Ok headers) ∈ outcomes (Sim.runtime false ∅) false urls
                                      [Ok Sim.twoHeaders; Err "timeout"] ∧
                record = presenceRow url headers)
           (tail (csvRecords (trace (Sim.runtime false ∅)
              (main (Sim.runtime false ∅)
                 (Sim.options true "out.csv" "" ["a.example"; "b.example"])
                 [Ok Sim.twoHeaders; Err "timeout"]).2))) ∧
    Forall (λ entry,
              ∀ headers, entry.2 = Ok headers →
                entry.1 ∈ rowURL <$> tail (csvRecords (trace (Sim.runtime false ∅)
                  (main (Sim.runtime false ∅)
                     (Sim.options true "out.csv" "" ["a.example"; "b.example"])
                     [Ok Sim.twoHeaders; Err "timeout"]).2)))
           (outcomes (Sim.runtime false ∅) false urls [Ok Sim.twoHeaders; Err "timeout"]).
Proof.
  apply (csv_rows_match_presence (Sim.runtime false ∅)
           (Sim.options true "out.csv" "" ["a.example"; "b.example"])
           [Ok Sim.twoHeaders; Err "timeout"]).
  - discriminate.
  - reflexivity.
Defined.

(** X14.  Every record a run writes to the CSV file has seven fields, the
    header row and every data row alike, also when the export breaks off
    part of the way. *)
Theorem csv_records_width (R : Runtime) (o : Options) (w : World R) :
  Forall (λ record, length record = 7) (csvRecords (trace R (main R o w).2)).
Proof.
  destruct (main_csv R o w)
    as [[-> _]|(urls & entries & rest & _ & _ & _ & _ & Hsplit & _)];
    [constructor|].
  assert (Forall (λ record : list string, length record = 7)
            (("URL" :: requiredHeaders) :: (rowOf <$> entries))) as Hall.
  { constructor; [done|]. apply Forall_fmap, Forall_forall. intros [url results] _.
    unfold compose, rowOf. cbn [fst snd]. by rewrite csvRow_cells. }
  rewrite Hsplit in Hall. by apply Forall_app in Hall as [? _].
Qed.

Lemma writeRows_stops (R : Runtime) path entries (s : state R) :
  ∃ written rest,
    entries = written ++ rest ∧
    trace R (writeRows R path entries s).2
      = trace R s ++ (CsvRecord path <$> (rowOf <$> written)) ∧
    ((writeRows R path entries s).1 = None ↔ rest = []).
Proof.
  revert s. induction entries as [|[url headers] entries IH]; intros s.
  { exists [], []. cbn. by rewrite app_nil_r. }
  cbn [writeRows]. pose proof (writeRecord_trace R path (csvRow url headers) s) as Hrec.
  destruct (writeRecord R path (csvRow url headers) s) as [[err|] s'].
  - exists [], ((url, headers) :: entries). cbn in *. by rewrite Hrec.
  - destruct (IH s') as (written & rest & -> & Htrace & Hall).
    exists ((url, headers) :: written), rest. cbn in *.
    by rewrite Htrace, Hrec, <- (assoc_L (++)).
Qed.

(** X15.  [writeResultsToCSV] writes the records in order and stops at
    the first failure: what it wrote is a prefix of the header row
    followed by the rows of the aggregate, the whole of it exactly when
    it returns no error, and nothing at all when the file cannot be
    created. *)
Theorem writeResultsToCSV_prefix (R : Runtime) (path : string)
    (agg : gmap string (gmap string bool)) (s : state R) :
  ∃ entries written rest,
    entries ≡ₚ map_to_list agg ∧
    ("URL" :: requiredHeaders) :: (rowOf <$> entries) = written ++ rest ∧
    trace R (writeResultsToCSV R path agg s).2
      = trace R s ++ (CsvRecord path <$> written) ∧
    ((writeResultsToCSV R path agg s).1 = None ↔ rest = []) ∧
    ((osCreate R path (world R s)).1 = None ∨ written = []).
Proof.
  unfold writeResultsToCSV.
  destruct (osCreate R path (world R s)) as [[err|] w].
  { exists (map_to_list agg), [], (("URL" :: requiredHeaders) :: (rowOf <$> map_to_list agg)).
    cbn. rewrite app_nil_r. repeat split; try done. by right. }
  set (s1 := {| world := w; trace := trace R s |}).
  pose proof (writeRecord_trace R path (["URL"] ++ requiredHeaders) s1) as Hhead.
  destruct (writeRecord R path (["URL"] ++ requiredHeaders) s1) as [[err|] s2];
    cbn [fst snd] in Hhead.
  { exists (map_to_list agg), [], (("URL" :: requiredHeaders) :: (rowOf <$> map_to_list agg)).
    cbn in *. rewrite Hhead. repeat split; try done. by left. }
  destruct (writeRows_stops R path (mapRange R (world R s2) agg) s2)
    as (written & rest & Hsplit & Htrace & Hall).
  exists (mapRange R (world R s2) agg), (("URL" :: requiredHeaders) :: (rowOf <$> written)),
    (rowOf <$> rest).
  split; [apply mapRange_perm|]. split; [|split; [|split]].
  - by rewrite Hsplit, fmap_app.
  - rewrite Htrace, Hhead. cbn. by rewrite <- (assoc_L (++)).
  - rewrite Hall. split; [by intros ->|]. by destruct rest.
  - by left.
Qed.

(** ** readURLsFromFile *)

Lemma all_app (p : ascii → bool) (a b : string) :
  Strings.all p (a +:+ b) = Strings.all p a && Strings.all p b.
Proof.
  induction a as [|c a IH]; [done|]. rewrite app_cons. cbn.
  by rewrite IH, andb_assoc.
Qed.

(** X16.  Every URL [readURLsFromFile] returns is not empty, holds no
    line feed, and neither starts nor ends with a space rune. *)
Theorem readURLsFromFile_clean (R : Runtime) (filePath : string) (w : World R)
    (urls : list string) :
  readURLsFromFile R filePath w = Ok urls →
  Forall (λ url,
            url ≠ "" ∧
            Strings.all notNewline url = true ∧
            Strings.cutSpace Strings.spaces url = None ∧
            Strings.cutSpace (String.rev <$> Strings.spaces) (String.rev url) = None)
         urls.
Proof.
  unfold readURLsFromFile. destruct (ReadFile R filePath w) as [data|err]; [|done].
  intros [= <-]. rewrite readURLs_fold, app_nil_l.
  apply Forall_forall. intros url [Hfull Hin]%list_elem_of_filter.
  apply list_elem_of_fmap in Hin as (line & -> & Hline).
  split; [done|].
  destruct (TrimSpace_spec line) as (before & after & _ & _ & Hsplit & Hleft & Hright).
  split; [|done].
  pose proof (Split_no_sep data (ascii_of_nat 10)) as Hclean.
  rewrite Forall_forall in Hclean. specialize (Hclean line Hline).
  change (Strings.all notNewline line = true) in Hclean.
  rewrite Hsplit, !all_app, !andb_true_iff in Hclean. by destruct Hclean as (_ & ? & _).
Qed.

Lemma readURLsFromFile_clean_witness :
  Forall (λ url,
            url ≠ "" ∧
            Strings.all notNewline url = true ∧
            Strings.cutSpace Strings.spaces url = None ∧
            Strings.cutSpace (String.rev <$> Strings.spaces) (String.rev url) = None)
         ["x.org"; "https://y.io"].
Proof.
  apply (readURLsFromFile_clean
           (Sim.runtime false
              {["urls.txt" := " x.org " +:+ newline +:+ newline +:+ "https://y.io" +:+ newline]})
           "urls.txt" []).
  reflexivity.
Defined.

Lemma Split_app_no_sep (e s : string) (sep : ascii) :
  Strings.all (λ c, negb (bool_decide (c = sep))) e = true →
  Strings.Split (e +:+ s) sep
  = match Strings.Split s sep with
    | piece :: pieces => (e +:+ piece) :: pieces
    | [] => [e]
    end.
Proof.
  induction e as [|c e IH]; intros Hclean.
  - change ("" +:+ s) with s. pose proof (Split_nonempty s sep).
    destruct (Strings.Split s sep); [done | reflexivity].
  - cbn in Hclean. apply andb_true_iff in Hclean as [Hc He].
    apply negb_true_iff, bool_decide_eq_false in Hc.
    rewrite app_cons. cbn [Strings.Split]. rewrite decide_False by done.
    rewrite (IH He). pose proof (Split_nonempty s sep).
    by destruct (Strings.Split s sep).
Qed.

(** Of the space runes only the line feed holds the line feed byte. *)
Lemma spaces_newline :
  forallb (λ e, bool_decide (e = newline) || Strings.all notNewline e) Strings.spaces = true.
Proof. by vm_compute. Qed.

(** The lines of a blank file are blank. *)
Lemma Blank_Split (data : string) :
  Blank Strings.spaces data →
  Forall (Blank Strings.spaces) (Strings.Split data (ascii_of_nat 10)).
Proof.
  induction 1 as [|e s He Hs IH]; [repeat constructor|].
  pose proof spaces_newline as Hcheck. rewrite forallb_forall in Hcheck.
  specialize (Hcheck e (proj1 (list_elem_of_In _ _) He)).
  apply orb_true_iff in Hcheck as [Hnl|Hclean].
  - apply bool_decide_eq_true in Hnl. subst e.
    change (newline +:+ s) with (String (ascii_of_nat 10) s).
    cbn [Strings.Split]. rewrite decide_True by done.
    constructor; [constructor | done].
  - rewrite (Split_app_no_sep e s (ascii_of_nat 10) Hclean).
    pose proof (Split_nonempty s (ascii_of_nat 10)).
    destruct (Strings.Split s (ascii_of_nat 10)) as [|piece pieces]; [done|].
    apply Forall_cons in IH as [Hpiece Hpieces].
    constructor; [by constructor | done].
Qed.

(** X17.  An input file that is empty or holds space runes only gives no
    URL; with no URL on the command line the run then prints the usage
    text and ends with status 1 without a request. *)
Theorem blank_input_file (R : Runtime) (o : Options) (w : World R) (data : string) :
  inputFile o ≠ "" →
  ReadFile R (inputFile o) w = Ok data →
  Blank Strings.spaces data →
  readURLsFromFile R (inputFile o) w = Ok [] ∧
  collectURLs R o w = Ok (args o) ∧
  (args o = [] →
   main R o w = (1%Z, {| world := w; trace := [Stdout (usage +:+ newline)] |})).
Proof.
  intros Hfile Hread Hblank.
  assert (readURLsFromFile R (inputFile o) w = Ok []) as Hnone.
  { unfold readURLsFromFile. rewrite Hread, readURLs_fold, app_nil_l. f_equal.
    pose proof (Blank_Split data Hblank) as Hlines.
    induction Hlines as [|line lines Hline _ IH]; [done|].
    rewrite fmap_cons, filter_cons.
    rewrite (proj2 (TrimSpace_empty_iff line) Hline).
    by rewrite decide_False by (intros Hne; by apply Hne). }
  assert (collectURLs R o w = Ok (args o)) as Hurls.
  { unfold collectURLs. by rewrite decide_True, Hnone, app_nil_r by done. }
  split; [done|]. split; [done|].
  intros Hargs. unfold main. by rewrite Hurls, Hargs.
Qed.

Lemma blank_input_file_witness :
  readURLsFromFile
    (Sim.runtime false {["urls.txt" := " " +:+ newline +:+ newline]}) "urls.txt" []
  = Ok [].
Proof.
  apply (blank_input_file
           (Sim.runtime false {["urls.txt" := " " +:+ newline +:+ newline]})
           (Sim.options false "" "urls.txt" []) [] (" " +:+ newline +:+ newline)).
  - discriminate.
  - reflexivity.
  - change (" " +:+ newline +:+ newline)
      with (" " +:+ (newline +:+ (newline +:+ ""))).
    repeat (constructor; [apply (bool_decide_unpack _); by vm_compute|]).
    constructor.
Defined.

(** ** The end of a run *)

(** X18.  The exit status of a run: 1 when the input file cannot be read
    or there is no URL; 0 when there are URLs and no output file; with an
    output file, 0 with the line about the export as the last thing
    printed, or 1 with the write error as the last thing logged.  Failed
    fetches never change the status. *)
Theorem main_status (R : Runtime) (o : Options) (w : World R) :
  match collectURLs R o w with
  | Err _ | Ok [] => (main R o w).1 = 1%Z
  | Ok _ =>
      if decide (outputFile o = "") then (main R o w).1 = 0%Z
      else
        ((main R o w).1 = 0%Z ∧
         last (trace R (main R o w).2)
         = Some (Stdout (newline +:+ "Results exported to " +:+ outputFile o +:+ newline))) ∨
        (∃ err,
           (main R o w).1 = 1%Z ∧
           last (trace R (main R o w).2)
           = Some (Logged ("Error writing to CSV: " +:+ err +:+ newline)))
  end.
Proof.
  unfold main. destruct (collectURLs R o w) as [[|url urls]|err]; [done| |done].
  rewrite (decide_False (P := length (url :: urls) = 0)) by (cbn; lia).
  destruct (processURLs R o (url :: urls) {| world := w; trace := [] |}) as [agg s1].
  destruct (decide (outputFile o = "")) as [Hnone|Hout].
  { by rewrite (decide_False (P := outputFile o ≠ "")) by (intros Hne; by apply Hne). }
  rewrite (decide_True (P := outputFile o ≠ "")) by done.
  destruct (writeResultsToCSV R (outputFile o) agg s1) as [[err|] s2];
    unfold emit; cbn [fst snd trace]; rewrite last_snoc.
  - right. by exists err.
  - by left.
Qed.

(** ** Missing-only mode and the CSV file together *)

Lemma missing_cells (f : string → bool) (names : list string) :
  length (filter (λ name, f name = false) names)
  = length (filter (λ text, text = "Missing")
              ((λ name, if f name then "Present" else "Missing") <$> names)) ∧
  (filter (λ name, f name = false) names = [] ↔
   Forall (λ text, text = "Present")
          ((λ name, if f name then "Present" else "Missing") <$> names)).
Proof.
  induction names as [|name names [IHlen IHall]]; [done|].
  rewrite fmap_cons, !filter_cons, Forall_cons.
  destruct (f name) eqn:Hname.
  - rewrite decide_False by done. rewrite decide_False by done.
    split; [done|]. rewrite IHall. by split; [|intros [_ ?]].
  - rewrite decide_True by done. rewrite decide_True by done.
    split; [cbn; by rewrite IHlen|]. split; [done | by intros [? _]].
Qed.

(** X19.  For one response, the names the missing-only loop collects are
    as many as the Missing cells of the CSV row of that response, and
    there is none exactly when every cell of the row is Present: the two
    outputs agree on what is missing. *)
Theorem missing_names_match_cells (R : Runtime) (w : World R) (url : string)
    (headers : Header) :
  length (missingHeaders (mapRange R w (checkHeaders headers)))
  = length (filter (λ text, text = "Missing")
              (rowCells (csvRow url (checkHeaders headers)))) ∧
  (missingHeaders (mapRange R w (checkHeaders headers)) = [] ↔
   Forall (λ text, text = "Present") (rowCells (csvRow url (checkHeaders headers)))).
Proof.
  pose proof (missingHeaders_perm R w headers) as Hperm.
  rewrite csvRow_cells, cell_checkHeaders. unfold rowCells. cbn [tail].
  destruct (missing_cells (present headers) requiredHeaders) as [Hlen Hall].
  fold (missingOf headers) in Hlen, Hall. split.
  - by rewrite Hperm.
  - rewrite <- Hall. split; intros Hnil.
    + rewrite Hnil in Hperm. symmetry in Hperm. by apply Permutation_nil_r in Hperm.
    + rewrite Hnil in Hperm. by apply Permutation_nil_r in Hperm.
Qed.
